(** * tools/util.py: the wildcard pattern matcher and the TTY capture routine

    A shallow embedding of [pattern_match] and [tty_capture] of
    [tools/util.py], with the properties of their natural-language
    specification stated and settled against it. *)

From Stdlib Require Import ZArith Ascii Lia.
From stdpp Require Import base option list strings gmap.

(* [set_solver] clears hypotheses it has already cleared. *)
#[local] Set Warnings "-clear-no-such-hyp".

Local Open Scope Z_scope.

(** ** Python values shared by both routines *)

(** The exceptions the two routines can meet. *)
Inductive exn : Type :=
| ValueError   (* str.split with an empty separator *)
| KeyError     (* a dict subscript on a missing key *)
| OSError.     (* a failing system call *)

Inductive result (A : Type) : Type :=
| Ok (a : A)
| Raise (e : exn).
Arguments Ok {A} a.
Arguments Raise {A} e.

(** * The wildcard pattern matcher *)

Module PatternMatch.

(** ** Python's [str] operations used by [pattern_match] *)

Definition newline : string := String "010"%char EmptyString.

(** [len(s)] *)
Definition len (s : string) : Z := Z.of_nat (String.length s).

(** [s.startswith(p)] *)
Fixpoint startswith (s p : string) {struct p} : bool :=
  match p, s with
  | EmptyString, _ => true
  | String _ _, EmptyString => false
  | String a p', String b s' => if decide (a = b) then startswith s' p' else false
  end.

(** The characters of [s] from position [n] on. *)
Fixpoint drop_chars (n : nat) (s : string) : string :=
  match n, s with
  | O, _ => s
  | S _, EmptyString => EmptyString
  | S n', String _ s' => drop_chars n' s'
  end.

(** The first [n] characters of [s]. *)
Fixpoint take_chars (n : nat) (s : string) : string :=
  match n, s with
  | O, _ => EmptyString
  | S _, EmptyString => EmptyString
  | S n', String a s' => String a (take_chars n' s')
  end.

(** [s[k:]]: a negative [k] counts from the end and is clamped at 0. *)
Definition slice_from (s : string) (k : Z) : string :=
  if k <? 0 then drop_chars (Z.to_nat (Z.max 0 (len s + k))) s
  else drop_chars (Z.to_nat k) s.

(** [s[:k]] *)
Definition slice_to (s : string) (k : Z) : string :=
  if k <? 0 then take_chars (Z.to_nat (Z.max 0 (len s + k))) s
  else take_chars (Z.to_nat k) s.

(** The position of the leftmost occurrence of [sub] in [s], if any. *)
Fixpoint find_pos (s sub : string) : option nat :=
  if startswith s sub then Some O
  else match s with
       | EmptyString => None
       | String _ s' => S <$> find_pos s' sub
       end.

(** [s.find(sub)]: the lowest index of an occurrence, [-1] when there is
    none. *)
Definition find (s sub : string) : Z :=
  match find_pos s sub with
  | Some k => Z.of_nat k
  | None => -1
  end.

(** [s.split(sep)] for a non-empty [sep]: cut at the leftmost occurrence
    and go on after it.  Every cut removes at least one character, so
    [String.length s] rounds are enough; [fuel] counts them. *)
Fixpoint split_from (fuel : nat) (s sep : string) : list string :=
  let pos := find s sep in
  if pos <? 0 then [s]
  else match fuel with
       | O => [s]
       | S fuel' =>
           slice_to s pos :: split_from fuel' (slice_from s (pos + len sep)) sep
       end.

(** [str.split(s, sep)]; an empty separator is a [ValueError]. *)
Definition split (s sep : string) : result (list string) :=
  if decide (sep = EmptyString) then Raise ValueError
  else Ok (split_from (String.length s) s sep).

(** [parts[i]] for an index in range (the only ones the loop uses). *)
Definition part (parts : list string) (i : nat) : string :=
  default EmptyString (parts !! i).

(** ** [pattern_match] *)

(** The [for i in range(1, len(parts))] loop, over the indices still to
    visit, with the part of [string] not consumed yet; what follows the loop
    ([return len(string) == 0]) is its last case. *)
Fixpoint match_loop (parts : list string) (indices : list nat) (string : string)
  : bool :=
  match indices with
  | [] => bool_decide (len string = 0)
  | i :: indices' =>
      if bool_decide (i = (length parts - 1)%nat)
         && (bool_decide (part parts i = EmptyString)
             || bool_decide (part parts i = newline))
      then true
      else
        let found := find string (part parts i) in
        if found <? 0 then false
        else match_loop parts indices'
               (slice_from string (found + len (part parts i)))
  end.

Definition pattern_match (pattern string wildcard : string) : result bool :=
  if decide (pattern = wildcard) then Ok true
  else
    match split pattern wildcard with
    | Raise e => Raise e
    | Ok parts =>
        if decide (length parts = 1%nat) then Ok (bool_decide (pattern = string))
        else if startswith string (part parts 0)
             then Ok (match_loop parts (seq 1 (length parts - 1))
                        (slice_from string (len (part parts 0))))
             else Ok false
    end.

(** The default value of the [wildcard] argument. *)
Definition WILDCARD : string := "[WILDCARD]".

(** ** The words of the specification

    The specification speaks of a segment being a literal prefix, of the
    leftmost occurrence of a segment, and of consuming through the end of an
    occurrence.  These are stated here on concatenations, independently of
    the scanning functions above. *)

(** [sub] occurs in [s] after [pre] and before [post]. *)
Definition occurs_at (sub s pre post : string) : Prop :=
  s = pre +:+ sub +:+ post.

(** [sub] occurs somewhere in [s]. *)
Definition occurs (sub s : string) : Prop :=
  exists pre post, occurs_at sub s pre post.

(** The occurrence of [sub] after [pre] is the leftmost one of [s]. *)
Definition leftmost (sub s pre post : string) : Prop :=
  occurs_at sub s pre post /\
  forall pre' post', occurs_at sub s pre' post' ->
    (String.length pre <= String.length pre')%nat.

(** Consuming the segments [segs] in order from [s] leaves [rest]: each one
    is found at its leftmost occurrence in what is left, and what is left
    afterwards starts at the end of that occurrence. *)
Inductive consumes : list string -> string -> string -> Prop :=
| consumes_nil s : consumes [] s s
| consumes_cons seg segs s pre post rest :
    leftmost seg s pre post ->
    consumes segs post rest ->
    consumes (seg :: segs) s rest.

(** The anchors before the last segment: [first] is a literal prefix of [s],
    then the segments [mids] are consumed, leaving [rest]. *)
Definition anchors_consumed (first : string) (mids : list string)
    (s rest : string) : Prop :=
  exists s1, s = first +:+ s1 /\ consumes mids s1 rest.

(** What the specification asks of the last segment against what is left
    after the earlier anchors: an empty or single-newline segment matches any
    remaining suffix; any other must be found (leftmost) with nothing left
    after it. *)
Definition final_matches (last rest : string) : Prop :=
  last = EmptyString \/ last = newline \/
  exists pre, leftmost last rest pre EmptyString.

(** [string_join sep parts]: [sep.join(parts)], the inverse of [split]. *)
Fixpoint string_join (sep : string) (parts : list string) : string :=
  match parts with
  | [] => EmptyString
  | [p] => p
  | p :: ps => p +:+ sep +:+ string_join sep ps
  end.

End PatternMatch.

(** * The TTY capture routine *)

Module TtyCapture.

(** Python [bytes]. *)
Abbreviation bytes := (list Byte.byte).

(** ** The operating system as [tty_capture] meets it

    Every call [tty_capture] makes on the operating system or on the child
    process is recorded, in order, with what it was given and what it got.
    [Signal] stands for [Popen.kill], [Popen.terminate] and
    [Popen.send_signal]. *)
Inductive syscall : Type :=
| Openpty (controlling subordinate : Z)
| Time (now : Z)
| Popen (cmd : list string) (stdin stdout stderr : Z)
| Write (fd : Z) (data : bytes)
| Select (rlist : list Z) (timeout : Z) (ready : list Z)
| Read (fd : Z) (n : Z) (data : result bytes)
| Poll (returncode : option Z)
| Close (fd : Z)
| Wait
| Signal (sig : Z).

(** What the child process and the clock do, as seen from the harness.  The
    polling loop goes in rounds, one per [select.select] call, numbered from
    1; round 0 is what precedes the loop.  Times are in milliseconds. *)
Record child : Type := {
  spawns : bool;                         (* [subprocess.Popen] succeeds *)
  readable : nat -> Z -> bool;           (* the descriptor is readable at the
                                            [select] of that round *)
  produces : nat -> Z -> result bytes;   (* what a read of the descriptor
                                            gives in that round *)
  status : nat -> option Z;              (* [p.poll()] in that round *)
  clock : nat -> Z;                      (* [time.time()] in that round *)
  exit_status : option Z                 (* the status [p.wait()] gets;
                                            [None]: the child never exits *)
}.

(** The state of the harness process seen by the operating system. *)
Record os : Type := {
  os_open : gset Z;          (* its open file descriptors *)
  os_round : nat;            (* the [select] calls made so far *)
  os_log : list syscall      (* the calls made so far, oldest first *)
}.

(** A harness process that has made no call yet. *)
Definition boot (open : gset Z) : os :=
  {| os_open := open; os_round := O; os_log := [] |}.

Definition record_call (e : syscall) (w : os) : os :=
  {| os_open := os_open w; os_round := os_round w; os_log := os_log w ++ [e] |}.

(** ** Computations on the operating system *)

Inductive outcome (A : Type) : Type :=
| Returns (a : A) (w : os)
| Raises (e : exn) (w : os)     (* an exception nobody handles *)
| Hangs (w : os)                (* blocked for ever in a call *)
| Running (w : os).             (* the loop is still going: fuel spent *)
Arguments Returns {A} a w.
Arguments Raises {A} e w.
Arguments Hangs {A} w.
Arguments Running {A} w.

Definition world_of {A : Type} (o : outcome A) : os :=
  match o with
  | Returns _ w | Raises _ w | Hangs w | Running w => w
  end.

Definition M (A : Type) : Type := os -> outcome A.

#[global] Instance M_ret : MRet M := fun A a w => Returns a w.

#[global] Instance M_bind : MBind M := fun A B f m w =>
  match m w with
  | Returns a w' => f a w'
  | Raises e w' => Raises e w'
  | Hangs w' => Hangs w'
  | Running w' => Running w'
  end.

Definition raise {A : Type} (e : exn) : M A := fun w => Raises e w.

(** [d[k]] on a dict. *)
Definition subscript `{Countable K} {V : Type} (d : gmap K V) (k : K) : M V :=
  match d !! k with
  | Some v => mret v
  | None => raise KeyError
  end.

Section Calls.

Variable c : child.

(** [pty.openpty()]: two descriptors not in use so far. *)
Definition openpty : M (Z * Z) := fun w =>
  let m := fresh (os_open w) in
  let s := fresh ({[m]} ∪ os_open w) in
  Returns (m, s)
    {| os_open := {[m; s]} ∪ os_open w; os_round := os_round w;
       os_log := os_log w ++ [Openpty m s] |}.

(** [time.time()] *)
Definition time_time : M Z := fun w =>
  let now := clock c (os_round w) in
  Returns now (record_call (Time now) w).

(** [subprocess.Popen(cmd, bufsize=1, stdin=, stdout=, stderr=,
    close_fds=True)] *)
Definition subprocess_Popen (cmd : list string) (stdin stdout stderr : Z)
  : M unit := fun w =>
  let w' := record_call (Popen cmd stdin stdout stderr) w in
  if spawns c then Returns tt w' else Raises OSError w'.

(** [os.write(fd, data)] *)
Definition os_write (fd : Z) (data : bytes) : M unit := fun w =>
  let w' := record_call (Write fd data) w in
  if decide (fd ∈ os_open w) then Returns tt w' else Raises OSError w'.

(** [select.select(rlist, [], [], timeout)]: the descriptors of [rlist] that
    are readable, in the order of [rlist].  It opens a round. *)
Definition select_select (rlist : list Z) (timeout : Z) : M (list Z) := fun w =>
  let round := S (os_round w) in
  let ready := filter (fun fd => readable c round fd = true) rlist in
  Returns ready
    {| os_open := os_open w; os_round := round;
       os_log := os_log w ++ [Select rlist timeout ready] |}.

(** [os.read(fd, n)]: at most [n] bytes. *)
Definition os_read (fd : Z) (n : Z) : M bytes := fun w =>
  if decide (fd ∈ os_open w) then
    match produces c (os_round w) fd with
    | Ok data =>
        let data := take (Z.to_nat n) data in
        Returns data (record_call (Read fd n (Ok data)) w)
    | Raise e => Raises e (record_call (Read fd n (Raise e)) w)
    end
  else Raises OSError (record_call (Read fd n (Raise OSError)) w).

(** [p.poll()] *)
Definition p_poll : M (option Z) := fun w =>
  let r := status c (os_round w) in
  Returns r (record_call (Poll r) w).

(** [os.close(fd)] *)
Definition os_close (fd : Z) : M unit := fun w =>
  if decide (fd ∈ os_open w) then
    Returns tt
      {| os_open := os_open w ∖ {[fd]}; os_round := os_round w;
         os_log := os_log w ++ [Close fd] |}
  else Raises OSError (record_call (Close fd) w).

(** [p.wait()], giving [p.returncode]: it blocks until the child has
    exited. *)
Definition p_wait : M Z := fun w =>
  let w' := record_call Wait w in
  match exit_status c with
  | Some code => Returns code w'
  | None => Hangs w'
  end.

(** ** [tty_capture] *)

Definition select_timeout : Z := 40.   (* [.04] seconds *)

(** The body of [for fd in ready]; a read of zero bytes leaves the [for]. *)
Fixpoint read_ready (fdmap : gmap Z string) (ready : list Z)
    (res : gmap string bytes) : M (gmap string bytes) :=
  match ready with
  | [] => mret res
  | fd :: ready' =>
      data ← os_read fd 512;
      match data with
      | [] => mret res
      | _ :: _ =>
          name ← subscript fdmap fd;
          old ← subscript res name;
          read_ready fdmap ready' (<[name := old ++ data]> res)
      end
  end.

(** The [while True] loop; [fuel] bounds the rounds looked at. *)
Fixpoint poll_loop (fuel : nat) (mo me : Z) (fdmap : gmap Z string)
    (timeout_exact : Z) (res : gmap string bytes) : M (gmap string bytes) :=
  match fuel with
  | O => fun w => Running w
  | S fuel' =>
      ready ← select_select [mo; me] select_timeout;
      match ready with
      | _ :: _ =>
          res' ← read_ready fdmap ready res;
          poll_loop fuel' mo me fdmap timeout_exact res'
      | [] =>
          returncode ← p_poll;
          match returncode with
          | Some _ => mret res
          | None =>
              now ← time_time;
              if timeout_exact <? now then mret res
              else poll_loop fuel' mo me fdmap timeout_exact res
          end
      end
  end.

(** [for fd in fds: os.close(fd)] *)
Fixpoint close_all (fds : list Z) : M unit :=
  match fds with
  | [] => mret tt
  | fd :: fds' => os_close fd;; close_all fds'
  end.

(** The descriptors and the deadline [tty_capture] works with. *)
Record ptys : Type := {
  mo : Z; so : Z; me : Z; se : Z; mi : Z; si : Z;
  timeout_exact : Z
}.

Definition fdmap_of (t : ptys) : gmap Z string :=
  <[mi t := "stdin"]> (<[me t := "stderr"]> (<[mo t := "stdout"]> ∅)).

Definition empty_res : gmap string bytes :=
  <["stderr" := []]> (<["stdout" := []]> ∅).

(** The lines before the loop: the three pseudo-terminals, the deadline, the
    launch of the child and the write of its input. *)
Definition launch (cmd : list string) (bytes_input : bytes) (timeout : Z)
  : M ptys :=
  '(mo, so) ← openpty;
  '(me, se) ← openpty;
  '(mi, si) ← openpty;
  now ← time_time;
  let timeout_exact := now + timeout in
  subprocess_Popen cmd si so se;;
  os_write mi bytes_input;;
  mret {| mo := mo; so := so; me := me; se := se; mi := mi; si := si;
          timeout_exact := timeout_exact |}.

(** The lines after the loop: the six descriptors are closed, the child is
    waited for, and the triple is returned. *)
Definition close_and_wait (t : ptys) (res : gmap string bytes)
  : M (Z * bytes * bytes) :=
  close_all [si t; so t; se t; mi t; mo t; me t];;
  returncode ← p_wait;
  stdout ← subscript res "stdout";
  stderr ← subscript res "stderr";
  mret (returncode, stdout, stderr).

(** [tty_capture(cmd, bytes_input, timeout)], with [timeout] in milliseconds
    (the default of 5 seconds is 5000) and [fuel] for the loop. *)
Definition tty_capture (fuel : nat) (cmd : list string) (bytes_input : bytes)
    (timeout : Z) : M (Z * bytes * bytes) :=
  t ← launch cmd bytes_input timeout;
  res ← poll_loop fuel (mo t) (me t) (fdmap_of t) (timeout_exact t) empty_res;
  close_and_wait t res.

End Calls.

(** ** What the specification says of a run, read off the record of calls *)

(** The loop is left in round [n]: nothing is readable on the two polled
    descriptors, and the child has exited or the deadline is passed. *)
Definition quiet (c : child) (mo me : Z) (n : nat) : Prop :=
  readable c n mo = false /\ readable c n me = false.

Definition exit_round (c : child) (mo me deadline : Z) (n : nat) : Prop :=
  quiet c mo me n /\ (is_Some (status c n) \/ deadline < clock c n).

(** The reads of round [n] on the polled descriptors that are readable do
    not fail. *)
Definition reads_succeed (c : child) (mo me : Z) (n : nat) : Prop :=
  forall fd, fd = mo \/ fd = me -> readable c n fd = true ->
    exists data, produces c n fd = Ok data.

(** Both buffers are there. *)
Definition buffers_ready (res : gmap string bytes) : Prop :=
  is_Some (res !! "stdout") /\ is_Some (res !! "stderr").

(** The calls the loop makes: polls of the two controlling descriptors,
    reads, and looks at the child and at the clock. *)
Definition loop_call (mo me : Z) (e : syscall) : Prop :=
  match e with
  | Select rlist timeout _ => rlist = [mo; me] /\ timeout = select_timeout
  | Read _ _ _ | Poll _ | Time _ => True
  | _ => False
  end.

Definition is_signal (e : syscall) : bool :=
  match e with Signal _ => true | _ => false end.

(** Some later [select] still has [fd] in the set it waits on. *)
Fixpoint selected_later (fd : Z) (log : list syscall) : bool :=
  match log with
  | [] => false
  | Select rlist _ _ :: log' => bool_decide (fd ∈ rlist) || selected_later fd log'
  | _ :: log' => selected_later fd log'
  end.

(** A descriptor is waited on again after a read of it gave zero bytes. *)
Fixpoint polled_after_eof (log : list syscall) : bool :=
  match log with
  | [] => false
  | Read fd _ (Ok []) :: log' => selected_later fd log' || polled_after_eof log'
  | _ :: log' => polled_after_eof log'
  end.

(** The descriptors read before the next [select]. *)
Fixpoint reads_of_round (log : list syscall) : list Z :=
  match log with
  | [] => []
  | Select _ _ _ :: _ => []
  | Read fd _ _ :: log' => fd :: reads_of_round log'
  | _ :: log' => reads_of_round log'
  end.

(** Every descriptor a [select] reported ready is read in that round. *)
Fixpoint ready_all_read (log : list syscall) : bool :=
  match log with
  | [] => true
  | Select _ _ ready :: log' =>
      forallb (fun fd => bool_decide (fd ∈ reads_of_round log')) ready
      && ready_all_read log'
  | _ :: log' => ready_all_read log'
  end.

(** The call recorded for a read that gave [data], and what the loop does
    with it when it is not empty: [res[fdmap[fd]] += data]. *)
Definition read_call (r : Z * bytes) : syscall := Read r.1 512 (Ok r.2).

Definition append_read (fdmap : gmap Z string) (res : gmap string bytes)
    (r : Z * bytes) : gmap string bytes :=
  match fdmap !! r.1 with
  | Some name =>
      match res !! name with
      | Some old => <[name := old ++ r.2]> res
      | None => res
      end
  | None => res
  end.

(** ** The state of the harness from one point of a run to another

    These are the invariants the proofs below carry along. *)

(** From [w] to [w'] the open descriptors are the same, rounds only go up,
    and the calls added all satisfy [P]. *)
Definition advances (P : syscall -> Prop) (w w' : os) : Prop :=
  os_open w' = os_open w /\
  (os_round w <= os_round w')%nat /\
  exists l, os_log w' = os_log w ++ l /\ Forall P l.

(** Reads stay within the round. *)
Definition within_round (mo me : Z) (w w' : os) : Prop :=
  advances (loop_call mo me) w w' /\ os_round w' = os_round w.

(** The state after the [select] that opens the next round, and after a
    round in which nothing was readable, the child was still running and the
    deadline was not passed. *)
Definition round_opened (c : child) (mo me : Z) (w : os) : os :=
  {| os_open := os_open w; os_round := S (os_round w);
     os_log := os_log w ++
       [Select [mo; me] select_timeout
          (filter (fun fd => readable c (S (os_round w)) fd = true) [mo; me])] |}.

Definition round_idle (c : child) (mo me : Z) (w : os) : os :=
  record_call (Time (clock c (S (os_round w))))
    (record_call (Poll None) (round_opened c mo me w)).

(** A run that has come to an end, whichever: more fuel does not change
    it. *)
Definition ended {A : Type} (o : outcome A) : Prop :=
  match o with Running _ => False | _ => True end.

(** What [launch] leaves when it returns: six distinct descriptors, all
    open and none of them open before, the deadline, and no round yet. *)
Definition launched (c : child) (open : gset Z) (cmd : list string)
    (bytes_input : bytes) (timeout : Z) (t : ptys) (w : os) : Prop :=
  NoDup [si t; so t; se t; mi t; mo t; me t] /\
  (forall fd, fd ∈ [si t; so t; se t; mi t; mo t; me t] -> fd ∉ open) /\
  os_open w = list_to_set [si t; so t; se t; mi t; mo t; me t] ∪ open /\
  os_round w = O /\
  timeout_exact t = clock c O + timeout /\
  os_log w = [Openpty (mo t) (so t); Openpty (me t) (se t);
              Openpty (mi t) (si t); Time (clock c O);
              Popen cmd (si t) (so t) (se t); Write (mi t) bytes_input].

(** ** Some children

    The harness is started with its standard descriptors 0, 1 and 2 open, so
    that the pseudo-terminals get 3 and 4 (stdout), 5 and 6 (stderr), 7 and 8
    (stdin), controlling end first. *)
Definition std_fds : gset Z := {[0; 1; 2]}.

Definition ascii_bytes (s : string) : bytes := String.list_byte_of_string s.

Definition hello : bytes := ascii_bytes "hello" ++ [Byte.x0a].

(** Echoes its input on stdout in the first round and exits with 0. *)
Definition echo_child : child := {|
  spawns := true;
  readable n fd := bool_decide (n = 1%nat /\ fd = 3);
  produces n fd := Ok hello;
  status n := if decide (2 <= n)%nat then Some 0 else None;
  clock n := 1000 + 40 * Z.of_nat n;
  exit_status := Some 0
|}.

(** Writes to stdout without end and never exits, like [yes]. *)
Definition chatty_child : child := {|
  spawns := true;
  readable n fd := bool_decide (fd = 3);
  produces n fd := Ok (ascii_bytes "y");
  status n := None;
  clock n := 1000 + 40 * Z.of_nat n;
  exit_status := None
|}.

(** Writes nothing and never exits, like [sleep] with no end. *)
Definition sleeping_child : child := {|
  spawns := true;
  readable n fd := false;
  produces n fd := Ok [];
  status n := None;
  clock n := 1000 + 40 * Z.of_nat n;
  exit_status := None
|}.

(** Its stdout gives zero bytes while its stderr has data, in the first two
    rounds; it has exited with 0 by the third. *)
Definition eof_child : child := {|
  spawns := true;
  readable n fd := bool_decide ((n <= 2)%nat /\ (fd = 3 \/ fd = 5));
  produces n fd := if decide (fd = 3) then Ok [] else Ok (ascii_bytes "E");
  status n := if decide (3 <= n)%nat then Some 0 else None;
  clock n := 1000 + 40 * Z.of_nat n;
  exit_status := Some 0
|}.

End TtyCapture.

(** * The process environment: [make_env] and [add_env_path] *)

Module Environ.
Import PatternMatch.

(** ** [make_env] *)

(** [for key in keys: env[key] = merge_env[key]] *)
Fixpoint merge_keys (keys : list string) (merge_env env : gmap string string)
  : result (gmap string string) :=
  match keys with
  | [] => Ok env
  | key :: keys' =>
      match merge_env !! key with
      | Some value => merge_keys keys' merge_env (<[key := value]> env)
      | None => Raise KeyError
      end
  end.

(** [make_env(merge_env=None, env=None)], with [os.environ] as it is at the
    call.  [None] is an argument left out; the keys of [merge_env] are gone
    through in the order the dict gives them. *)
Definition make_env (os_environ : gmap string string)
    (merge_env env : option (gmap string string))
  : result (gmap string string) :=
  let env := default os_environ env in
  let merge_env := default ∅ merge_env in
  merge_keys (map_to_list merge_env).*1 merge_env env.

(** ** [add_env_path] *)

(** The [add] argument: a [str], or a list of directories. *)
Inductive add_arg : Type :=
| AddStr (s : string)
| AddList (dirs : list string).

(** The list objects of a call: one it has made itself, holding [dirs], or
    the one the caller passed as [add], whose content is kept aside since
    the caller still sees it. *)
Inductive dir_list : Type :=
| Made (dirs : list string)
| Passed.

Definition content (l : dir_list) (passed : list string) : list string :=
  match l with
  | Made dirs => dirs
  | Passed => passed
  end.

(** [dirs_left += [d]]: the list is extended in place. *)
Definition extend (l : dir_list) (d : string) (passed : list string)
  : dir_list * list string :=
  match l with
  | Made dirs => (Made (dirs ++ [d]), passed)
  | Passed => (Passed, passed ++ [d])
  end.

(** [for d in dirs_right: if not d in dirs_left: dirs_left += [d]] *)
Fixpoint add_dirs (dirs_right : list string) (dirs_left : dir_list)
    (passed : list string) : dir_list * list string :=
  match dirs_right with
  | [] => (dirs_left, passed)
  | d :: dirs_right' =>
      if bool_decide (d ∈ content dirs_left passed)
      then add_dirs dirs_right' dirs_left passed
      else
        let '(dirs_left', passed') := extend dirs_left d passed in
        add_dirs dirs_right' dirs_left' passed'
  end.

(** [env[key].split(os.pathsep) if key in env else []] *)
Definition env_dirs (pathsep : string) (env : gmap string string)
    (key : string) : result (list string) :=
  match env !! key with
  | Some value => split value pathsep
  | None => Ok []
  end.

(** [add.split(os.pathsep) if isinstance(add, str) else add]: the list
    object, and the content of the list the caller passed, if any. *)
Definition arg_dirs (pathsep : string) (add : add_arg)
  : result (dir_list * list string) :=
  match add with
  | AddStr s =>
      match split s pathsep with
      | Ok dirs => Ok (Made dirs, [])
      | Raise e => Raise e
      end
  | AddList dirs => Ok (Passed, dirs)
  end.

(** [add_env_path(add, env, key="PATH", prepend=False)], with [os.pathsep]
    given.  It returns nothing; what is given back here is what the caller
    sees afterwards: [env], and the content of the list passed as [add]
    when it is one. *)
Definition add_env_path (pathsep : string) (add : add_arg)
    (env : gmap string string) (key : string) (prepend : bool)
  : result (gmap string string * option (list string)) :=
  match env_dirs pathsep env key with
  | Raise e => Raise e
  | Ok from_env =>
      match arg_dirs pathsep add with
      | Raise e => Raise e
      | Ok (dirs_right, passed) =>
          let dirs_left := Made from_env in
          let '(dirs_left, dirs_right) :=
            if prepend then (dirs_right, dirs_left) else (dirs_left, dirs_right) in
          let '(dirs_left, passed) :=
            add_dirs (content dirs_right passed) dirs_left passed in
          Ok (<[key := string_join pathsep (content dirs_left passed)]> env,
              match add with
              | AddStr _ => None
              | AddList _ => Some passed
              end)
      end
  end.

(** The directories [add] stands for. *)
Definition dirs_of (pathsep : string) (add : add_arg) : result (list string) :=
  match add with
  | AddStr s => split s pathsep
  | AddList dirs => Ok dirs
  end.

End Environ.

(** * Exit codes in expected output: [parse_exit_code] *)

Module ExitCode.
Import PatternMatch.

(** [\d] on a [str]: one of the ten digits. *)
Definition is_digit (c : ascii) : bool :=
  (48 <=? nat_of_ascii c)%nat && (nat_of_ascii c <=? 57)%nat.

(** What [\d*] takes at the start of [s]: the longest run of digits. *)
Fixpoint leading_digits (s : string) : string :=
  match s with
  | EmptyString => EmptyString
  | String c s' =>
      if is_digit c then String c (leading_digits s') else EmptyString
  end.

(** [re.findall] with the pattern [error] followed by the group of [\d*],
    on [s]: the matches are looked for from left to
    right, each search starting where the match before ended, and of each
    match the group is kept.  A match takes five characters at least, so
    [String.length s] rounds are enough; [fuel] counts them. *)
Fixpoint findall_error (fuel : nat) (s : string) : list string :=
  let found := find s "error" in
  if found <? 0 then []
  else match fuel with
       | O => []
       | S fuel' =>
           let after := slice_from s (found + len "error") in
           let d := leading_digits after in
           d :: findall_error fuel' (slice_from after (len d))
       end.

(** [int(d)] on a run of digits, most significant first. *)
Definition digit_value (c : ascii) : Z := Z.of_nat (nat_of_ascii c) - 48.

Fixpoint int_digits (acc : Z) (d : string) : Z :=
  match d with
  | EmptyString => acc
  | String c d' => int_digits (10 * acc + digit_value c) d'
  end.

(** [int(d or 1)] *)
Definition int_or_1 (d : string) : Z :=
  if decide (d = EmptyString) then 1 else int_digits 0 d.

(** [parse_exit_code(s)]; [None] is the failed assertion on several error
    codes. *)
Definition parse_exit_code (s : string) : option Z :=
  let codes := int_or_1 <$> findall_error (String.length s) s in
  if bool_decide (1 < length codes)%nat then None
  else if bool_decide (length codes = 1%nat) then codes !! O
  else Some 0.

(** A string of digits only, and a string that does not go on with a
    digit. *)
Fixpoint all_digits (d : string) : bool :=
  match d with
  | EmptyString => true
  | String c d' => is_digit c && all_digits d'
  end.

Definition no_digit_first (r : string) : bool :=
  match r with
  | EmptyString => true
  | String c _ => negb (is_digit c)
  end.

End ExitCode.

(** * Searching files by extension: [find_exts] *)

Module FindExts.
Import PatternMatch.

(** [s.endswith(suffix)] *)
Definition endswith (s suffix : string) : bool :=
  (String.length suffix <=? String.length s)%nat
  && bool_decide
       (drop_chars (String.length s - String.length suffix) s = suffix).

(** A directory as [os.walk] goes through it: its sub-directories and its
    other entries by name, in the order [os.listdir] gives them.  A
    sub-directory that [os.walk] does not enter (a symbolic link, or one that
    cannot be listed) has no tree. *)
#[local] Unset Elimination Schemes.
Inductive tree : Type :=
| Dir (dirs : list (string * option tree)) (files : list string).
#[local] Set Elimination Schemes.

Section Walk.

(** [os.path.join] and [os.path.normpath]. *)
Variable path_join : string -> string -> string.
Variable normpath : string -> string.

(** [for ext in extensions: if filename.endswith(ext): matches.append(...);
    break] *)
Fixpoint match_exts (extensions : list string) (root filename : string)
    (matches : list string) : list string :=
  match extensions with
  | [] => matches
  | ext :: extensions' =>
      if endswith filename ext then matches ++ [path_join root filename]
      else match_exts extensions' root filename matches
  end.

(** [for filename in filenames: ...] *)
Definition match_files (extensions : list string) (root : string)
    (filenames matches : list string) : list string :=
  foldl (fun matches filename => match_exts extensions root filename matches)
    matches filenames.

(** The body of [for root, dirnames, filenames in os.walk(directory)], with
    the walk from [root] on: a root in [skip] has its [dirnames] emptied and
    is left at once, so that nothing below it is visited. *)
Fixpoint walk (skip extensions : list string) (root : string) (t : tree)
    (matches : list string) : list string :=
  match t with
  | Dir dirs files =>
      if bool_decide (root ∈ skip) then matches
      else
        foldl (fun matches entry =>
                 match entry with
                 | (name, Some sub) =>
                     walk skip extensions (path_join root name) sub matches
                 | (_, None) => matches
                 end)
          (match_files extensions root files matches) dirs
  end.

(** [find_exts(directories, extensions, skip=None)], on a file system that
    has the tree [fs directory] at [directory], or nothing to list there. *)
Definition find_exts (fs : string -> option tree) (directories : list string)
    (extensions : list string) (skip : option (list string)) : list string :=
  let skip := default [] skip in
  let skip := normpath <$> skip in
  foldl (fun matches directory =>
           match fs directory with
           | Some t => walk skip extensions directory t matches
           | None => matches
           end)
    [] directories.

(** The walk from [root], a directory with tree [t], visits the directory
    [at_root], whose files are [files]: neither [root] nor any directory on
    the way down to [at_root], itself included, is in [skip]. *)
Inductive visits (skip : list string)
  : string -> tree -> string -> list string -> Prop :=
| visits_here root dirs files :
    root ∉ skip -> visits skip root (Dir dirs files) root files
| visits_below root dirs files name sub at_root at_files :
    root ∉ skip ->
    (name, Some sub) ∈ dirs ->
    visits skip (path_join root name) sub at_root at_files ->
    visits skip root (Dir dirs files) at_root at_files.

End Walk.

End FindExts.

(** * Quoting an argument for the Windows shell: [shell_quote_win] *)

Module ShellQuote.
Import PatternMatch.

Definition dquote : ascii := "034"%char.
Definition backslash : ascii := "092"%char.

(** The characters of the class searched for, the control characters and the
    space (codes 0 to 32) and the double quote apart. *)
Definition special_chars : string := "^%~!@&?*<>|()=".

Fixpoint mem_char (c : ascii) (s : string) : bool :=
  match s with
  | EmptyString => false
  | String x s' => Ascii.eqb c x || mem_char c s'
  end.

Definition special (c : ascii) : bool :=
  (nat_of_ascii c <=? 32)%nat || Ascii.eqb c dquote
  || mem_char c special_chars.

(** [re.search] of the class in [arg]: some character of [arg] is in it. *)
Fixpoint search_special (arg : string) : bool :=
  match arg with
  | EmptyString => false
  | String c arg' => special c || search_special arg'
  end.

(** [arg.replace] of one double quote by two. *)
Fixpoint double_quotes (arg : string) : string :=
  match arg with
  | EmptyString => EmptyString
  | String c arg' =>
      if Ascii.eqb c dquote
      then String dquote (String dquote (double_quotes arg'))
      else String c (double_quotes arg')
  end.

Fixpoint backslashes (n : nat) : string :=
  match n with
  | O => EmptyString
  | S n' => String backslash (backslashes n')
  end.

(** [re.sub] of one or more backslashes that a double quote follows by the
    same backslashes twice.  The scan goes from left to right with the length
    [run] of the run of backslashes it is in: a match starts where a run
    starts and takes the whole run, since a shorter one is followed by a
    backslash; a run that something else follows, or that ends the string, is
    copied. *)
Fixpoint sub_backslashes (run : nat) (s : string) : string :=
  match s with
  | EmptyString => backslashes run
  | String c s' =>
      if Ascii.eqb c backslash then sub_backslashes (S run) s'
      else if Ascii.eqb c dquote
      then backslashes (run + run) +:+ String c (sub_backslashes 0 s')
      else backslashes run +:+ String c (sub_backslashes 0 s')
  end.

(** [shell_quote_win(arg)] *)
Definition shell_quote_win (arg : string) : string :=
  if search_special arg then
    let arg := double_quotes arg in
    let arg := String dquote (arg +:+ String dquote EmptyString) in
    sub_backslashes 0 arg
  else arg.

(** ** Reading a quoted argument *)

(** Every double quote of [s] has an even number of backslashes right before
    it, [run] being the number of backslashes that stand before [s]. *)
Fixpoint quotes_unescaped (run : nat) (s : string) : bool :=
  match s with
  | EmptyString => true
  | String c s' =>
      if Ascii.eqb c backslash then quotes_unescaped (S run) s'
      else if Ascii.eqb c dquote
      then Nat.even run && quotes_unescaped 0 s'
      else quotes_unescaped 0 s'
  end.

(** The way back from [sub_backslashes]: half of the backslashes before a
    double quote. *)
Fixpoint halve_backslashes (run : nat) (s : string) : string :=
  match s with
  | EmptyString => backslashes run
  | String c s' =>
      if Ascii.eqb c backslash then halve_backslashes (S run) s'
      else if Ascii.eqb c dquote
      then backslashes (Nat.div2 run) +:+ String c (halve_backslashes 0 s')
      else backslashes run +:+ String c (halve_backslashes 0 s')
  end.

(** The way back from [double_quotes]: one double quote for two. *)
Fixpoint single_quotes (s : string) : string :=
  match s with
  | EmptyString => EmptyString
  | String c s' =>
      if Ascii.eqb c dquote then
        match s' with
        | EmptyString => String c EmptyString
        | String _ s'' => String c (single_quotes s'')
        end
      else String c (single_quotes s')
  end.

End ShellQuote.

(** * What [tty_capture] returns as output *)

Module TtyOutput.
Import TtyCapture.

(** The data the reads of the descriptor [fd] gave, in the order of the
    calls. *)
Fixpoint data_read (fd : Z) (log : list syscall) : bytes :=
  match log with
  | [] => []
  | Read fd' _ (Ok data) :: log' =>
      if decide (fd' = fd) then data ++ data_read fd log'
      else data_read fd log'
  | _ :: log' => data_read fd log'
  end.

End TtyOutput.

(** * Facts about the pattern matcher *)

Module PatternMatchFacts.
Import PatternMatch.

(** ** Strings as concatenations *)

Lemma sapp_nil_l (s : string) : EmptyString +:+ s = s.
Proof. reflexivity. Qed.

Lemma sapp_cons (a : ascii) (s t : string) :
  String a s +:+ t = String a (s +:+ t).
Proof. reflexivity. Qed.

(** Unfold concatenations next to a constructor. *)
Ltac app_simpl := rewrite ?sapp_cons, ?sapp_nil_l in *; simpl in *.

Lemma sapp_empty_r (s : string) : s +:+ EmptyString = s.
Proof. induction s as [|a s IH]; app_simpl; congruence. Qed.

Lemma sapp_assoc (a b c : string) : (a +:+ b) +:+ c = a +:+ b +:+ c.
Proof. induction a as [|x a IH]; app_simpl; congruence. Qed.

Lemma slength_app (a b : string) :
  String.length (a +:+ b) = (String.length a + String.length b)%nat.
Proof. induction a as [|x a IH]; app_simpl; congruence. Qed.

Lemma sapp_inv_head (p a b : string) : p +:+ a = p +:+ b -> a = b.
Proof. induction p as [|x p IH]; app_simpl; [done | intros [= H]; auto]. Qed.

(** Two splittings of one string with left parts of equal length agree. *)
Lemma sapp_inj_length (a b c d : string) :
  a +:+ b = c +:+ d -> String.length a = String.length c -> a = c /\ b = d.
Proof.
  revert c. induction a as [|x a IH]; intros [|y c]; app_simpl; try done.
  intros [= -> H] [= Hl]. destruct (IH _ H Hl) as [-> ->]. done.
Qed.

Lemma drop_chars_app (p r : string) : drop_chars (String.length p) (p +:+ r) = r.
Proof. induction p as [|x p IH]; app_simpl; [by destruct r | done]. Qed.

Lemma take_chars_app (p r : string) : take_chars (String.length p) (p +:+ r) = p.
Proof. induction p as [|x p IH]; app_simpl; [by destruct r | congruence]. Qed.

Lemma take_drop_chars (n : nat) (s : string) :
  take_chars n s +:+ drop_chars n s = s.
Proof.
  revert s. induction n as [|n IH]; intros [|a s]; simpl; try done.
  rewrite sapp_cons. by rewrite IH.
Qed.

(** ** The scanning functions meet the words of the specification *)

Lemma startswith_spec (s p : string) :
  startswith s p = true <-> exists r, s = p +:+ r.
Proof.
  revert s. induction p as [|a p IH]; intros s; simpl.
  - split; [by exists s | done].
  - destruct s as [|b s].
    + split; [done | intros [r [=]]].
    + destruct (decide (a = b)) as [->|Hne].
      * rewrite IH. split; intros [r Hr]; exists r;
          [by rewrite Hr | by injection Hr].
      * split; [done | intros [r [= ? _]]; done].
Qed.

Lemma find_pos_Some (s sub : string) (k : nat) :
  find_pos s sub = Some k ->
  exists pre post, leftmost sub s pre post /\ String.length pre = k.
Proof.
  revert k. induction s as [|c s IH]; intros k; simpl.
  - destruct (startswith EmptyString sub) eqn:Hsw; [|done].
    intros [= <-]. apply startswith_spec in Hsw as [r Hr].
    exists EmptyString, r. repeat split; [done | intros; simpl; lia].
  - destruct (startswith (String c s) sub) eqn:Hsw.
    + intros [= <-]. apply startswith_spec in Hsw as [r Hr].
      exists EmptyString, r. repeat split; [done | intros; simpl; lia].
    + destruct (find_pos s sub) as [j|] eqn:Hj; [|done].
      intros [= <-]. destruct (IH j eq_refl) as (pre & post & [Hocc Hmin] & Hlen).
      exists (String c pre), post. repeat split.
      * unfold occurs_at in *. rewrite sapp_cons. by rewrite Hocc.
      * intros [|c' pre'] post' Hocc'; unfold occurs_at in Hocc'.
        -- assert (startswith (String c s) sub = true) as Habs
             by (apply startswith_spec; eauto).
           congruence.
        -- rewrite sapp_cons in Hocc'. injection Hocc' as -> Hs.
           specialize (Hmin pre' post' Hs). simpl. lia.
      * simpl. by rewrite Hlen.
Qed.

Lemma find_pos_None (s sub : string) :
  find_pos s sub = None -> ~ occurs sub s.
Proof.
  induction s as [|c s IH]; simpl.
  - destruct (startswith EmptyString sub) eqn:Hsw; [done|].
    intros _ (pre & post & Hocc). unfold occurs_at in Hocc.
    destruct pre; [|done].
    assert (startswith EmptyString sub = true) by (apply startswith_spec; eauto).
    congruence.
  - destruct (startswith (String c s) sub) eqn:Hsw; [done|].
    destruct (find_pos s sub) eqn:Hj; [done|].
    intros _ (pre & post & Hocc). unfold occurs_at in Hocc.
    destruct pre as [|c' pre].
    + assert (startswith (String c s) sub = true) by (apply startswith_spec; eauto).
      congruence.
    + rewrite sapp_cons in Hocc. injection Hocc as -> Hs.
      apply IH; [done|]. by exists pre, post.
Qed.

(** The leftmost occurrence is unique. *)
Lemma leftmost_unique (sub s pre post pre' post' : string) :
  leftmost sub s pre post -> leftmost sub s pre' post' ->
  pre = pre' /\ post = post'.
Proof.
  intros [H1 M1] [H2 M2].
  pose proof (M1 _ _ H2). pose proof (M2 _ _ H1).
  unfold occurs_at in *.
  assert (pre = pre' /\ sub +:+ post = sub +:+ post') as [-> Hp]
    by (apply sapp_inj_length; [congruence | lia]).
  split; [done | by apply sapp_inv_head in Hp].
Qed.

Lemma find_nonneg (s sub : string) :
  0 <= find s sub ->
  exists pre post, leftmost sub s pre post /\ find s sub = len pre.
Proof.
  unfold find. destruct (find_pos s sub) as [k|] eqn:Hk; [|lia].
  intros _. destruct (find_pos_Some _ _ _ Hk) as (pre & post & Hl & <-).
  by exists pre, post.
Qed.

Lemma find_neg (s sub : string) : find s sub < 0 -> ~ occurs sub s.
Proof.
  unfold find. destruct (find_pos s sub) as [k|] eqn:Hk; [lia|].
  intros _. by apply find_pos_None.
Qed.

Lemma find_leftmost (sub s pre post : string) :
  leftmost sub s pre post -> find s sub = len pre.
Proof.
  intros Hl. destruct (Z_lt_le_dec (find s sub) 0) as [Hneg|Hpos].
  - exfalso. apply (find_neg _ _ Hneg). exists pre, post. apply Hl.
  - destruct (find_nonneg _ _ Hpos) as (pre' & post' & Hl' & ->).
    by destruct (leftmost_unique _ _ _ _ _ _ Hl Hl') as [-> _].
Qed.

Lemma find_occurs (s sub : string) : occurs sub s -> 0 <= find s sub.
Proof.
  intros Hocc. destruct (Z_lt_le_dec (find s sub) 0) as [Hneg|Hpos]; [|done].
  by destruct (find_neg _ _ Hneg).
Qed.

(** The slice taken after a found occurrence is what follows it. *)
Lemma slice_after (sub pre post : string) :
  slice_from (pre +:+ sub +:+ post) (len pre + len sub) = post.
Proof.
  unfold slice_from, len.
  destruct (Z.ltb_spec (Z.of_nat (String.length pre) + Z.of_nat (String.length sub)) 0);
    [lia|].
  rewrite <- Nat2Z.inj_add, Nat2Z.id, <- slength_app, <- sapp_assoc.
  apply drop_chars_app.
Qed.

Lemma slice_after_prefix (p r : string) : slice_from (p +:+ r) (len p) = r.
Proof.
  unfold slice_from, len.
  destruct (Z.ltb_spec (Z.of_nat (String.length p)) 0); [lia|].
  rewrite Nat2Z.id. apply drop_chars_app.
Qed.

Lemma slice_before (pre r : string) : slice_to (pre +:+ r) (len pre) = pre.
Proof.
  unfold slice_to, len.
  destruct (Z.ltb_spec (Z.of_nat (String.length pre)) 0); [lia|].
  rewrite Nat2Z.id. apply take_chars_app.
Qed.

(** ** The loop of [pattern_match] against the anchors of the specification *)

Lemma part_middle (done rest : list string) (x : string) :
  part (done ++ x :: rest) (length done) = x.
Proof. unfold part. by rewrite list_lookup_middle. Qed.

Lemma len_zero (s : string) : len s = 0 <-> s = EmptyString.
Proof. unfold len. destruct s; simpl; split; intros; try done; lia. Qed.

Lemma consumes_cons_inv (seg : string) (segs : list string) (s rest : string) :
  consumes (seg :: segs) s rest <->
  exists pre post, leftmost seg s pre post /\ consumes segs post rest.
Proof.
  split.
  - inversion 1; subst; eauto.
  - intros (pre & post & Hl & Hc). by eapply consumes_cons.
Qed.

Lemma consumes_nil_inv (s rest : string) : consumes [] s rest <-> rest = s.
Proof. split; [by inversion 1 | intros ->; constructor]. Qed.

(** What is consumed and what is left are determined by the segments. *)
Lemma consumes_unique (segs : list string) (s r1 r2 : string) :
  consumes segs s r1 -> consumes segs s r2 -> r1 = r2.
Proof.
  intros H1. revert r2. induction H1 as [s|seg segs s pre post rest Hl H1 IH];
    intros r2 H2.
  - by apply consumes_nil_inv in H2.
  - apply consumes_cons_inv in H2 as (pre' & post' & Hl' & H2).
    destruct (leftmost_unique _ _ _ _ _ _ Hl Hl') as [_ <-]. auto.
Qed.

(** One round of the loop on a segment that is not the last one, or is the
    last one and neither empty nor a newline: find it and go on after it. *)
Lemma find_step (s seg : string) :
  (find s seg < 0 /\ ~ occurs seg s) \/
  (exists pre post, leftmost seg s pre post /\ 0 <= find s seg /\
     slice_from s (find s seg + len seg) = post).
Proof.
  destruct (Z_lt_le_dec (find s seg) 0) as [Hneg|Hpos].
  - left. split; [done | by apply find_neg].
  - right. destruct (find_nonneg _ _ Hpos) as (pre & post & Hl & Hf).
    exists pre, post. split; [done|]. split; [done|].
    rewrite Hf. destruct Hl as [-> _]. apply slice_after.
Qed.

Lemma match_loop_spec (mids : list string) :
  forall (done : list string) (last s : string),
    match_loop (done ++ mids ++ [last]) (seq (length done) (S (length mids))) s
      = true
    <-> exists rest, consumes mids s rest /\ final_matches last rest.
Proof.
  induction mids as [|m mids IH]; intros done last s.
  - cbn [seq match_loop app length].
    rewrite part_middle, length_app. cbn [length].
    replace (length done + 1 - 1)%nat with (length done) by lia.
    rewrite bool_decide_eq_true_2 by done. cbn [andb].
    destruct (decide (last = EmptyString)) as [->|Hne].
    { rewrite bool_decide_eq_true_2 by done. cbn.
      split; [|done]. intros _. exists s. split; [constructor | by left]. }
    rewrite (bool_decide_eq_false_2 (last = EmptyString)) by done.
    destruct (decide (last = newline)) as [->|Hnl].
    { rewrite bool_decide_eq_true_2 by done. cbn.
      split; [|done]. intros _. exists s. split; [constructor | right; by left]. }
    rewrite (bool_decide_eq_false_2 (last = newline)) by done. cbn [orb].
    destruct (find_step s last) as [[Hneg Hno]|(pre & post & Hl & Hpos & Hsl)].
    + rewrite (proj2 (Z.ltb_lt _ _) Hneg). split; [done|].
      intros (rest & Hc & Hfin). apply consumes_nil_inv in Hc as ->.
      destruct Hfin as [?|[?|[pre [Hocc _]]]]; try done.
      destruct Hno. by exists pre, EmptyString.
    + rewrite (proj2 (Z.ltb_ge _ _) Hpos), Hsl, bool_decide_eq_true, len_zero.
      split.
      * intros ->. exists s. split; [constructor|]. right; right. by exists pre.
      * intros (rest & Hc & Hfin). apply consumes_nil_inv in Hc as ->.
        destruct Hfin as [?|[?|[pre' Hl']]]; try done.
        by destruct (leftmost_unique _ _ _ _ _ _ Hl Hl') as [_ ->].
  - cbn [seq match_loop length].
    change ((m :: mids) ++ [last]) with (m :: (mids ++ [last])).
    rewrite part_middle.
    rewrite bool_decide_eq_false_2
      by (rewrite length_app; cbn [length]; rewrite length_app; cbn [length]; lia).
    cbn [andb].
    destruct (find_step s m) as [[Hneg Hno]|(pre & post & Hl & Hpos & Hsl)].
    + rewrite (proj2 (Z.ltb_lt _ _) Hneg). split; [done|].
      intros (rest & Hc & _). apply consumes_cons_inv in Hc as (pre & post & [Hocc _] & _).
      destruct Hno. by exists pre, post.
    + rewrite (proj2 (Z.ltb_ge _ _) Hpos), Hsl.
      specialize (IH (done ++ [m]) last post).
      rewrite <- app_assoc, length_app in IH. cbn [app length] in IH.
      replace (length done + 1)%nat with (S (length done)) in IH by lia.
      rewrite IH. split.
      * intros (rest & Hc & Hfin). exists rest. split; [|done].
        by eapply consumes_cons.
      * intros (rest & Hc & Hfin). exists rest. split; [|done].
        apply consumes_cons_inv in Hc as (pre' & post' & Hl' & Hc).
        by destruct (leftmost_unique _ _ _ _ _ _ Hl Hl') as [_ ->].
Qed.

(** ** [split]: the segments of a pattern *)

Lemma occurs_empty (s : string) : occurs EmptyString s.
Proof. by exists EmptyString, s. Qed.

Lemma occurs_self (s : string) : occurs s s.
Proof. exists EmptyString, EmptyString. unfold occurs_at. by rewrite sapp_empty_r. Qed.

Lemma occurs_length (sub s : string) :
  occurs sub s -> (String.length sub <= String.length s)%nat.
Proof. intros (pre & post & ->). rewrite !slength_app. lia. Qed.

Lemma find_empty_string (sep : string) :
  sep <> EmptyString -> find EmptyString sep = -1.
Proof. intros Hne. unfold find. by destruct sep. Qed.

(** One round of [split]: without an occurrence of the separator the string
    is the last segment; otherwise it is cut around the leftmost one. *)
Lemma split_from_none (fuel : nat) (s sep : string) :
  ~ occurs sep s -> split_from fuel s sep = [s].
Proof.
  intros Hno. destruct (find_step s sep) as [[Hneg _]|(pre & post & [Ho _] & _)].
  - destruct fuel; simpl; by rewrite (proj2 (Z.ltb_lt _ _) Hneg).
  - destruct Hno. by exists pre, post.
Qed.

Lemma split_from_cut (fuel : nat) (s sep pre post : string) :
  leftmost sep s pre post ->
  split_from (S fuel) s sep = pre :: split_from fuel post sep.
Proof.
  intros Hl. cbn [split_from].
  pose proof (find_leftmost _ _ _ _ Hl) as Hf. rewrite Hf.
  assert (0 <= len pre) as Hpos by (unfold len; lia).
  rewrite (proj2 (Z.ltb_ge _ _) Hpos).
  destruct Hl as [-> _]. by rewrite slice_before, slice_after.
Qed.

Lemma split_from_not_nil (fuel : nat) (s sep : string) :
  split_from fuel s sep <> [].
Proof. destruct fuel; simpl; by repeat case_match. Qed.

(** Joining the segments with the separator gives the string back. *)
Lemma split_from_join (fuel : nat) (sep : string) :
  forall s, string_join sep (split_from fuel s sep) = s.
Proof.
  induction fuel as [|fuel IH]; intros s.
  - simpl. by case_match.
  - destruct (find_step s sep) as [[_ Hno]|(pre & post & Hl & _)].
    + by rewrite split_from_none.
    + rewrite (split_from_cut _ _ _ _ _ Hl). cbn [string_join].
      destruct (split_from fuel post sep) eqn:E;
        [by destruct (split_from_not_nil fuel post sep)|].
      rewrite <- E, IH. by destruct Hl as [-> _].
Qed.

(** No segment contains the separator, as soon as the fuel covers the
    length of the string (as it does in [split]). *)
Lemma leftmost_before (sep s pre post : string) :
  sep <> EmptyString -> leftmost sep s pre post -> ~ occurs sep pre.
Proof.
  intros Hne [Ho Hmin] (a & b & ->). unfold occurs_at in *.
  specialize (Hmin a (b +:+ sep +:+ post)).
  rewrite !slength_app in Hmin.
  assert (0 < String.length sep)%nat by (destruct sep; [done | simpl; lia]).
  enough (String.length a + (String.length sep + String.length b)
          <= String.length a)%nat by lia.
  apply Hmin. rewrite Ho. by rewrite !sapp_assoc.
Qed.

Lemma split_from_segments (sep : string) (fuel : nat) :
  sep <> EmptyString ->
  forall s, (String.length s <= fuel)%nat ->
    Forall (fun seg => ~ occurs sep seg) (split_from fuel s sep).
Proof.
  intros Hne. induction fuel as [|fuel IH]; intros s Hlen.
  - assert (s = EmptyString) as -> by (destruct s; [done | simpl in Hlen; lia]).
    rewrite split_from_none.
    + constructor; [|constructor]. intros Ho%occurs_length.
      destruct sep; [done | simpl in Ho; lia].
    + intros Ho%occurs_length. destruct sep; [done | simpl in Ho; lia].
  - destruct (find_step s sep) as [[_ Hno]|(pre & post & Hl & _)].
    + rewrite split_from_none by done. by repeat constructor.
    + rewrite (split_from_cut _ _ _ _ _ Hl). constructor.
      * by eapply leftmost_before.
      * apply IH. destruct Hl as [-> _]. rewrite !slength_app in Hlen.
        assert (0 < String.length sep)%nat by (destruct sep; [done | simpl; lia]).
        lia.
Qed.

(** A pattern without the wildcard is its own single segment; a pattern with
    an occurrence has two segments or more. *)
Lemma split_no_occurrence (p w : string) :
  ~ occurs w p -> split p w = Ok [p].
Proof.
  intros Hno. unfold split. destruct (decide (w = EmptyString)) as [->|_].
  - destruct Hno. apply occurs_empty.
  - by rewrite split_from_none.
Qed.

Lemma split_occurrence (p w : string) :
  w <> EmptyString -> occurs w p ->
  exists first mids last, split p w = Ok (first :: mids ++ [last]).
Proof.
  intros Hne Ho. unfold split. rewrite decide_False by done.
  destruct (find_step p w) as [[_ Hno]|(pre & post & Hl & _)]; [done|].
  pose proof (occurs_length _ _ Ho) as Hlen.
  destruct (String.length p) as [|n] eqn:En;
    [destruct w; [done | simpl in Hlen; lia]|].
  rewrite (split_from_cut _ _ _ _ _ Hl).
  destruct (split_from n post w) as [|x l] eqn:E using rev_ind;
    [by destruct (split_from_not_nil n post w)|].
  by exists pre, l, x.
Qed.

Lemma split_self (w : string) : w <> EmptyString -> split w w = Ok [EmptyString; EmptyString].
Proof.
  intros Hne. unfold split. rewrite decide_False by done.
  assert (leftmost w w EmptyString EmptyString) as Hl.
  { split; [unfold occurs_at; by rewrite sapp_empty_r | intros; simpl; lia]. }
  destruct (String.length w) as [|n] eqn:En; [by destruct w|].
  rewrite (split_from_cut _ _ _ _ _ Hl).
  rewrite split_from_none; [done|].
  intros Ho%occurs_length. rewrite En in Ho. simpl in Ho. lia.
Qed.

(** ** [pattern_match] on a pattern of two segments or more *)

(** The whole of [pattern_match] on such a pattern: it returns a boolean,
    which is [true] exactly when the anchors are consumed in order and the
    last segment matches what is left. *)
Lemma pattern_match_segments (p s w first last : string) (mids : list string) :
  split p w = Ok (first :: mids ++ [last]) ->
  exists b, pattern_match p s w = Ok b /\
    (b = true <->
     exists rest, anchors_consumed first mids s rest /\ final_matches last rest).
Proof.
  intros Hsplit. unfold pattern_match.
  destruct (decide (p = w)) as [->|Hpw].
  - exists true. split; [done|]. split; [|done]. intros _.
    assert (w <> EmptyString) as Hne.
    { intros ->. by unfold split in Hsplit. }
    rewrite split_self in Hsplit by done.
    destruct mids as [|m [|m' mids]]; [|done..].
    injection Hsplit as <- <-.
    exists s. split; [|by left]. exists s. split; [done | constructor].
  - rewrite Hsplit.
    rewrite decide_False by (cbn [length]; rewrite length_app; cbn [length]; lia).
    change (part (first :: mids ++ [last]) 0) with first.
    destruct (startswith s first) eqn:Hsw.
    + apply startswith_spec in Hsw as [r ->]. rewrite slice_after_prefix.
      eexists. split; [done|].
      cbn [length]. rewrite length_app. cbn [length].
      replace (S (length mids + 1) - 1)%nat with (S (length mids)) by lia.
      rewrite (match_loop_spec mids [first] last r).
      split; intros (rest & Hc & Hfin); exists rest; (split; [|done]).
      * by exists r.
      * destruct Hc as (r' & Hr & Hc). by apply sapp_inv_head in Hr as <-.
    + exists false. split; [done|]. split; [done|].
      intros (rest & (r & -> & _) & _).
      assert (startswith (first +:+ r) first = true)
        by (apply startswith_spec; eauto).
      congruence.
Qed.

Lemma pattern_match_segments_true (p s w first last : string) (mids : list string) :
  split p w = Ok (first :: mids ++ [last]) ->
  pattern_match p s w = Ok true <->
  exists rest, anchors_consumed first mids s rest /\ final_matches last rest.
Proof.
  intros Hsplit.
  destruct (pattern_match_segments p s w _ _ _ Hsplit) as (b & -> & Hb).
  rewrite <- Hb. split; [by intros [= ->] | by intros ->].
Qed.

Lemma pattern_match_segments_false (p s w first last : string) (mids : list string) :
  split p w = Ok (first :: mids ++ [last]) ->
  pattern_match p s w = Ok false <->
  ~ exists rest, anchors_consumed first mids s rest /\ final_matches last rest.
Proof.
  intros Hsplit.
  destruct (pattern_match_segments p s w _ _ _ Hsplit) as (b & -> & Hb).
  rewrite <- Hb. by destruct b.
Qed.

(** What is left after the anchors is determined by the string. *)
Lemma anchors_consumed_unique (first : string) (mids : list string)
    (s r1 r2 : string) :
  anchors_consumed first mids s r1 -> anchors_consumed first mids s r2 -> r1 = r2.
Proof.
  intros (a & -> & H1) (b & Hb & H2). apply sapp_inv_head in Hb as <-.
  by eapply consumes_unique.
Qed.

(** ** The properties of the specification *)

(** C7. A pattern that is exactly the wildcard token matches every string,
    the empty string included. *)
Theorem wildcard_alone_matches_everything :
  (forall wildcard s : string, pattern_match wildcard s wildcard = Ok true) /\
  pattern_match WILDCARD EmptyString WILDCARD = Ok true.
Proof.
  assert (forall wildcard s, pattern_match wildcard s wildcard = Ok true) as H.
  { intros wildcard s. unfold pattern_match. by rewrite decide_True. }
  split; [exact H | apply H].
Qed.

(** C8. On a pattern in which the wildcard token does not occur,
    [pattern_match] is string equality: it returns [true] if and only if the
    pattern and the string are the same. *)
Theorem no_wildcard_is_equality (pattern s wildcard : string) :
  ~ occurs wildcard pattern ->
  pattern_match pattern s wildcard = Ok (bool_decide (pattern = s)) /\
  (pattern_match pattern s wildcard = Ok true <-> pattern = s).
Proof.
  intros Hno.
  assert (pattern_match pattern s wildcard = Ok (bool_decide (pattern = s))) as H.
  { unfold pattern_match. rewrite decide_False.
    - by rewrite split_no_occurrence.
    - intros ->. destruct Hno. apply occurs_self. }
  split; [exact H|]. rewrite H. split.
  - intros [= Hb]. by apply bool_decide_eq_true in Hb.
  - intros ->. by rewrite bool_decide_eq_true_2.
Qed.

Lemma no_wildcard_is_equality_witness :
  ~ occurs WILDCARD "hello" /\
  pattern_match "hello" "hello" WILDCARD = Ok (bool_decide ("hello" = "hello")) /\
  (pattern_match "hello" "hello" WILDCARD = Ok true <-> "hello" = "hello").
Proof.
  assert (~ occurs WILDCARD "hello") as Hno
    by (apply find_neg; vm_compute; reflexivity).
  split; [exact Hno | apply (no_wildcard_is_equality "hello" "hello" WILDCARD Hno)].
Defined.

(** C5. On a pattern split into two segments or more, the first segment has
    to be a literal prefix of the string and each later segment but the last
    has to occur in what is left, which then starts after the end of its
    leftmost occurrence; when the first segment is not a prefix, or a segment
    is not found where it is required, the result is [false]. *)
Theorem anchors_consumed_in_order :
  (forall (pattern s wildcard first last : string) (mids : list string),
     split pattern wildcard = Ok (first :: mids ++ [last]) ->
     ((~ exists r, s = first +:+ r) -> pattern_match pattern s wildcard = Ok false) /\
     (pattern_match pattern s wildcard = Ok true ->
        exists rest, anchors_consumed first mids s rest) /\
     ((~ exists rest, anchors_consumed first mids s rest) ->
        pattern_match pattern s wildcard = Ok false)) /\
  pattern_match "foo[WILDCARD]bar" "xfoobazbar" WILDCARD = Ok false /\
  pattern_match "foo[WILDCARD]bar" "foobazbar" WILDCARD = Ok true /\
  pattern_match "foo[WILDCARD]bar" "foobar" WILDCARD = Ok true.
Proof.
  split; [|by vm_compute].
  intros pattern s wildcard first last mids Hsplit.
  assert ((~ exists rest, anchors_consumed first mids s rest) ->
          pattern_match pattern s wildcard = Ok false) as Hnot.
  { intros Hno. apply (pattern_match_segments_false _ _ _ _ _ _ Hsplit).
    intros (rest & Hc & _). apply Hno. by exists rest. }
  split; [|split]; [| |exact Hnot].
  - intros Hno. apply Hnot. intros (rest & r & -> & _). apply Hno. by exists r.
  - intros (rest & Hc & _)%(pattern_match_segments_true _ _ _ _ _ _ Hsplit).
    by exists rest.
Qed.

Lemma anchors_consumed_in_order_witness :
  split "a[WILDCARD]b[WILDCARD]c" WILDCARD = Ok ("a" :: ["b"] ++ ["c"]) /\
  (pattern_match "a[WILDCARD]b[WILDCARD]c" "a-b-c" WILDCARD = Ok true ->
   exists rest, anchors_consumed "a" ["b"] "a-b-c" rest).
Proof.
  split; [reflexivity|].
  apply (proj1 anchors_consumed_in_order
           "a[WILDCARD]b[WILDCARD]c" "a-b-c" WILDCARD "a" "c" ["b"]).
  reflexivity.
Defined.

(** C4. On a pattern with a wildcard whose last segment is neither empty nor
    a single newline, [pattern_match] returns [true] only if (and in fact
    exactly when), once the earlier anchors are consumed, the last segment
    occurs in what is left and nothing is left after the end of its leftmost
    occurrence; anything left after it makes the result [false]. *)
Theorem final_segment_ends_the_string :
  (forall (pattern s wildcard first last : string) (mids : list string),
     split pattern wildcard = Ok (first :: mids ++ [last]) ->
     last <> EmptyString -> last <> newline ->
     (pattern_match pattern s wildcard = Ok true <->
        exists rest pre, anchors_consumed first mids s rest /\
                         leftmost last rest pre EmptyString) /\
     (forall rest pre post,
        anchors_consumed first mids s rest -> leftmost last rest pre post ->
        post <> EmptyString -> pattern_match pattern s wildcard = Ok false)) /\
  pattern_match "[WILDCARD]abc" "xyzabcd" WILDCARD = Ok false /\
  pattern_match "[WILDCARD]abc" "xyzabc" WILDCARD = Ok true.
Proof.
  split; [|by vm_compute].
  intros pattern s wildcard first last mids Hsplit Hne Hnl. split.
  - rewrite (pattern_match_segments_true _ _ _ _ _ _ Hsplit). split.
    + intros (rest & Hc & [?|[?|[pre Hl]]]); try done. by exists rest, pre.
    + intros (rest & pre & Hc & Hl). exists rest. split; [done|].
      right; right. by exists pre.
  - intros rest pre post Hc Hl Hpost.
    apply (pattern_match_segments_false _ _ _ _ _ _ Hsplit).
    intros (rest' & Hc' & [?|[?|[pre' Hl']]]); try done.
    rewrite (anchors_consumed_unique _ _ _ _ _ Hc' Hc) in Hl'.
    by destruct (leftmost_unique _ _ _ _ _ _ Hl Hl') as [_ ->].
Qed.

Lemma final_segment_ends_the_string_witness :
  split "[WILDCARD]abc" WILDCARD = Ok (EmptyString :: [] ++ ["abc"]) /\
  (pattern_match "[WILDCARD]abc" "abcabc" WILDCARD = Ok true <->
     exists rest pre, anchors_consumed EmptyString [] "abcabc" rest /\
                      leftmost "abc" rest pre EmptyString).
Proof.
  split; [reflexivity|].
  apply (proj1 final_segment_ends_the_string
           "[WILDCARD]abc" "abcabc" WILDCARD EmptyString "abc" []);
    [reflexivity | discriminate | discriminate].
Defined.

(** C6. On a pattern with a wildcard whose last segment is empty or a single
    newline, the match succeeds as soon as the earlier anchors are consumed,
    whatever is left of the string, nothing included. *)
Theorem open_final_segment_matches_any_rest :
  (forall (pattern s wildcard first last : string) (mids : list string),
     split pattern wildcard = Ok (first :: mids ++ [last]) ->
     last = EmptyString \/ last = newline ->
     (forall rest, anchors_consumed first mids s rest ->
        pattern_match pattern s wildcard = Ok true) /\
     (pattern_match pattern s wildcard = Ok true <->
        exists rest, anchors_consumed first mids s rest)) /\
  pattern_match "a[WILDCARD]b[WILDCARD]" "aXbY" WILDCARD = Ok true /\
  pattern_match "a[WILDCARD]b[WILDCARD]" "aXb" WILDCARD = Ok true.
Proof.
  split; [|by vm_compute].
  intros pattern s wildcard first last mids Hsplit Hlast.
  split.
  - intros rest Hc. apply (pattern_match_segments_true _ _ _ _ _ _ Hsplit).
    exists rest. split; [done|]. destruct Hlast; [by left | right; by left].
  - rewrite (pattern_match_segments_true _ _ _ _ _ _ Hsplit). split.
    + intros (rest & Hc & _). by exists rest.
    + intros (rest & Hc). exists rest. split; [done|].
      destruct Hlast; [by left | right; by left].
Qed.

Lemma open_final_segment_matches_any_rest_witness :
  split "a[WILDCARD]b[WILDCARD]" WILDCARD = Ok ("a" :: ["b"] ++ [EmptyString]) /\
  (pattern_match "a[WILDCARD]b[WILDCARD]" "aXbY" WILDCARD = Ok true <->
     exists rest, anchors_consumed "a" ["b"] "aXbY" rest).
Proof.
  split; [reflexivity|].
  apply (proj1 open_final_segment_matches_any_rest
           "a[WILDCARD]b[WILDCARD]" "aXbY" WILDCARD "a" EmptyString ["b"]);
    [reflexivity | by left].
Defined.

(** C10. With the empty string as wildcard: the empty pattern matches (it is
    the wildcard), and every other pattern makes the call raise, [str.split]
    refusing an empty separator, instead of returning a boolean. *)
Theorem empty_wildcard_raises :
  (forall s : string, pattern_match EmptyString s EmptyString = Ok true) /\
  (forall pattern s : string,
     pattern <> EmptyString ->
     pattern_match pattern s EmptyString = Raise ValueError).
Proof.
  split.
  - intros s. unfold pattern_match. by rewrite decide_True.
  - intros pattern s Hne. unfold pattern_match. by rewrite decide_False.
Qed.

Lemma empty_wildcard_raises_witness :
  "abc" <> EmptyString /\ pattern_match "abc" "abc" EmptyString = Raise ValueError.
Proof.
  split; [discriminate|].
  apply (proj2 empty_wildcard_raises "abc" "abc"). discriminate.
Defined.

End PatternMatchFacts.

(** * Facts about the TTY capture routine *)

Module TtyCaptureFacts.
Import TtyCapture.

(** ** Sequencing *)

Lemma bind_returns {A B : Type} (m : M A) (f : A -> M B) (w w' : os) (a : A) :
  m w = Returns a w' -> (m ≫= f) w = f a w'.
Proof. intros H. unfold mbind, M_bind. by rewrite H. Qed.

Lemma bind_raises {A B : Type} (m : M A) (f : A -> M B) (w w' : os) (e : exn) :
  m w = Raises e w' -> (m ≫= f) w = Raises e w'.
Proof. intros H. unfold mbind, M_bind. by rewrite H. Qed.

Lemma bind_running {A B : Type} (m : M A) (f : A -> M B) (w w' : os) :
  m w = Running w' -> (m ≫= f) w = Running w'.
Proof. intros H. unfold mbind, M_bind. by rewrite H. Qed.

Lemma bind_hangs {A B : Type} (m : M A) (f : A -> M B) (w w' : os) :
  m w = Hangs w' -> (m ≫= f) w = Hangs w'.
Proof. intros H. unfold mbind, M_bind. by rewrite H. Qed.

(** What a computation's outcome is when sequenced after another. *)
Lemma bind_inv_returns {A B : Type} (m : M A) (f : A -> M B) (w w' : os) (b : B) :
  (m ≫= f) w = Returns b w' ->
  exists a w1, m w = Returns a w1 /\ f a w1 = Returns b w'.
Proof.
  unfold mbind, M_bind. destruct (m w) as [a w1| | |] eqn:E; try done. eauto.
Qed.

(** ** What the loop does to the state of the harness *)

Lemma advances_refl (P : syscall -> Prop) (w : os) : advances P w w.
Proof.
  repeat split; [lia|]. exists []. by rewrite app_nil_r.
Qed.

Lemma advances_trans (P : syscall -> Prop) (w1 w2 w3 : os) :
  advances P w1 w2 -> advances P w2 w3 -> advances P w1 w3.
Proof.
  intros (Ho1 & Hr1 & l1 & Hl1 & HP1) (Ho2 & Hr2 & l2 & Hl2 & HP2).
  repeat split; [congruence | lia |].
  exists (l1 ++ l2). rewrite Hl2, Hl1, app_assoc. split; [done|].
  by apply Forall_app.
Qed.

Lemma advances_call (P : syscall -> Prop) (w : os) (e : syscall) :
  P e -> advances P w (record_call e w).
Proof.
  intros He. repeat split; [simpl; lia|]. exists [e]. by repeat constructor.
Qed.

(** Case analysis on the first of two sequenced computations. *)
Ltac bind_case m w a w' E :=
  destruct (m w) as [a w'|a w'|w'|w'] eqn:E;
  [ rewrite (bind_returns _ _ _ _ _ E)
  | rewrite (bind_raises _ _ _ _ _ E)
  | rewrite (bind_hangs _ _ _ _ E)
  | rewrite (bind_running _ _ _ _ E) ].

Section Loop.

Variable c : child.
Variables (mo me : Z) (fdmap : gmap Z string) (deadline : Z).

Lemma os_read_within (fd n : Z) (w : os) :
  within_round mo me w (world_of (os_read c fd n w)).
Proof.
  unfold os_read. repeat case_match; simpl; (split; [|done]);
    by apply advances_call.
Qed.

Lemma subscript_returns `{Countable K} {V : Type} (d : gmap K V) (k : K) (v : V)
    (w : os) :
  d !! k = Some v -> subscript d k w = Returns v w.
Proof. intros E. unfold subscript. by rewrite E. Qed.

Lemma subscript_raises `{Countable K} {V : Type} (d : gmap K V) (k : K) (w : os) :
  d !! k = None -> subscript d k w = Raises KeyError w.
Proof. intros E. unfold subscript. by rewrite E. Qed.

Lemma read_ready_within (ready : list Z) :
  forall (res : gmap string bytes) (w : os),
    within_round mo me w (world_of (read_ready c fdmap ready res w)).
Proof.
  induction ready as [|fd ready IH]; intros res w.
  - split; [apply advances_refl | done].
  - cbn [read_ready].
    pose proof (os_read_within fd 512 w) as [Ha Hr].
    bind_case (os_read c fd 512) w data w1 E; simpl in Ha, Hr; try done.
    destruct data as [|b data]; [done|].
    destruct (fdmap !! fd) as [name|] eqn:En.
    2: { by rewrite (bind_raises _ _ _ _ _ (subscript_raises _ _ _ En)). }
    rewrite (bind_returns _ _ _ _ _ (subscript_returns _ _ _ _ En)).
    destruct (res !! name) as [old|] eqn:Eo.
    2: { by rewrite (bind_raises _ _ _ _ _ (subscript_raises _ _ _ Eo)). }
    rewrite (bind_returns _ _ _ _ _ (subscript_returns _ _ _ _ Eo)).
    destruct (IH (<[name:=old ++ b :: data]> res) w1) as [Ha' Hr'].
    split; [by eapply advances_trans | congruence].
Qed.

(** The [select] that opens a round. *)
Lemma select_returns (w : os) :
  select_select c [mo; me] select_timeout w =
  Returns (filter (fun fd => readable c (S (os_round w)) fd = true) [mo; me])
    {| os_open := os_open w; os_round := S (os_round w);
       os_log := os_log w ++
         [Select [mo; me] select_timeout
            (filter (fun fd => readable c (S (os_round w)) fd = true) [mo; me])] |}.
Proof. reflexivity. Qed.

Lemma select_advances (w w1 : os) (ready : list Z) :
  select_select c [mo; me] select_timeout w = Returns ready w1 ->
  advances (loop_call mo me) w w1 /\ os_round w1 = S (os_round w).
Proof.
  rewrite select_returns. intros [= <- <-]. repeat split; [simpl; lia|].
  eexists [_]. split; [done|]. by repeat constructor.
Qed.

Lemma poll_loop_advances (fuel : nat) :
  forall (res : gmap string bytes) (w : os),
    advances (loop_call mo me) w
      (world_of (poll_loop c fuel mo me fdmap deadline res w)).
Proof.
  induction fuel as [|fuel IH]; intros res w.
  - apply advances_refl.
  - cbn [poll_loop].
    bind_case (select_select c [mo; me] select_timeout) w ready w1 E;
      try (by rewrite select_returns in E).
    apply select_advances in E as [H1 _].
    destruct ready as [|fd ready].
    + rewrite (bind_returns (p_poll c) _ w1 _ _ eq_refl).
      assert (advances (loop_call mo me) w (record_call (Poll (status c (os_round w1))) w1))
        as H2 by (eapply advances_trans; [exact H1 | by apply advances_call]).
      destruct (status c (os_round w1)) as [code|]; [done|].
      rewrite (bind_returns (time_time c) _ _ _ _ eq_refl).
      set (w2 := record_call (Poll None) w1) in *.
      assert (advances (loop_call mo me) w (record_call (Time (clock c (os_round w2))) w2))
        as H3 by (eapply advances_trans; [exact H2 | by apply advances_call]).
      destruct (deadline <? clock c (os_round w2)); [done|].
      eapply advances_trans; [exact H3 | apply IH].
    + pose proof (read_ready_within (fd :: ready) res w1) as [Ha _].
      bind_case (read_ready c fdmap (fd :: ready) res) w1 res' w2 E';
        simpl in Ha; try (by eapply advances_trans).
      eapply advances_trans; [exact H1|]. eapply advances_trans; [exact Ha | apply IH].
Qed.

Lemma p_poll_returns (w : os) :
  p_poll c w =
  Returns (status c (os_round w)) (record_call (Poll (status c (os_round w))) w).
Proof. reflexivity. Qed.

Lemma time_time_returns (w : os) :
  time_time c w =
  Returns (clock c (os_round w)) (record_call (Time (clock c (os_round w))) w).
Proof. reflexivity. Qed.

Lemma poll_loop_S (fuel : nat) (res : gmap string bytes) (w : os) :
  poll_loop c (S fuel) mo me fdmap deadline res w =
  match filter (fun fd => readable c (S (os_round w)) fd = true) [mo; me] with
  | [] =>
      match status c (S (os_round w)) with
      | Some code =>
          Returns res (record_call (Poll (Some code)) (round_opened c mo me w))
      | None =>
          if deadline <? clock c (S (os_round w))
          then Returns res (round_idle c mo me w)
          else poll_loop c fuel mo me fdmap deadline res (round_idle c mo me w)
      end
  | ready =>
      match read_ready c fdmap ready res (round_opened c mo me w) with
      | Returns res' w' => poll_loop c fuel mo me fdmap deadline res' w'
      | Raises e w' => Raises e w'
      | Hangs w' => Hangs w'
      | Running w' => Running w'
      end
  end.
Proof.
  cbn [poll_loop]. rewrite (bind_returns _ _ _ _ _ (select_returns w)).
  fold (round_opened c mo me w).
  destruct (filter _ _) as [|fd ready].
  - rewrite (bind_returns _ _ _ _ _ (p_poll_returns (round_opened c mo me w))).
    cbn [round_opened os_round].
    destruct (status c (S (os_round w))) as [code|]; [reflexivity|].
    rewrite (bind_returns _ _ _ _ _ (time_time_returns _)).
    unfold round_idle. cbn [record_call round_opened os_round].
    by destruct (deadline <? _).
  - unfold mbind, M_bind. reflexivity.
Qed.

Lemma quiet_filter (n : nat) :
  filter (fun fd => readable c n fd = true) [mo; me] = [] <-> quiet c mo me n.
Proof.
  unfold quiet. rewrite !filter_cons, filter_nil.
  destruct (readable c n mo), (readable c n me); simpl; intuition congruence.
Qed.

(** ** When the loop is left *)

Lemma poll_loop_fuel_S (fuel : nat) :
  forall (res : gmap string bytes) (w : os),
    ended (poll_loop c fuel mo me fdmap deadline res w) ->
    poll_loop c (S fuel) mo me fdmap deadline res w =
    poll_loop c fuel mo me fdmap deadline res w.
Proof.
  induction fuel as [|fuel IH]; intros res w Hend; [done|].
  rewrite (poll_loop_S (S fuel) res w). rewrite (poll_loop_S fuel res w) in Hend |- *.
  destruct (filter _ _) as [|fd ready].
  - destruct (status c (S (os_round w))); [done|].
    destruct (deadline <? _); [done | by apply IH].
  - destruct (read_ready _ _ _ _ _); try done. by apply IH.
Qed.

Lemma poll_loop_fuel_le (fuel fuel' : nat) (res : gmap string bytes) (w : os) :
  (fuel <= fuel')%nat ->
  ended (poll_loop c fuel mo me fdmap deadline res w) ->
  poll_loop c fuel' mo me fdmap deadline res w =
  poll_loop c fuel mo me fdmap deadline res w.
Proof.
  induction 1 as [|fuel' Hle IH]; intros Hend; [done|].
  rewrite <- (IH Hend). apply poll_loop_fuel_S. by rewrite (IH Hend).
Qed.

(** The loop returns only in a round in which nothing is readable and the
    child has exited or the deadline is passed, and in the first such
    round. *)
Lemma poll_loop_returns (fuel : nat) :
  forall (res res' : gmap string bytes) (w w' : os),
    poll_loop c fuel mo me fdmap deadline res w = Returns res' w' ->
    (os_round w < os_round w')%nat /\
    exit_round c mo me deadline (os_round w') /\
    forall m, (os_round w < m < os_round w')%nat ->
      ~ exit_round c mo me deadline m.
Proof.
  induction fuel as [|fuel IH]; intros res res' w w'; [done|].
  rewrite poll_loop_S.
  destruct (filter _ _) as [|fd ready] eqn:Ef.
  - apply quiet_filter in Ef.
    destruct (status c (S (os_round w))) as [code|] eqn:Es.
    { intros [= <- <-]. cbn. split; [lia|]. split; [|lia].
      split; [done|]. left. by rewrite Es. }
    destruct (Z.ltb_spec deadline (clock c (S (os_round w)))) as [Hlt|Hge].
    { intros [= <- <-]. cbn. split; [lia|]. split; [|lia].
      split; [done|]. by right. }
    intros (Hr & Hex & Hfirst)%IH. cbn in Hr. split; [lia|]. split; [done|].
    intros m Hm. destruct (decide (m = S (os_round w))) as [->|Hne].
    + intros [_ [[code Hc]|Hlt]]; [congruence | lia].
    + apply Hfirst. cbn. lia.
  - pose proof (read_ready_within (fd :: ready) res (round_opened c mo me w)) as [_ Hr].
    destruct (read_ready _ _ _ _ _) as [res1 w1| | |]; try done.
    simpl in Hr. intros (Hr' & Hex & Hfirst)%IH. rewrite Hr in Hr', Hfirst.
    cbn in Hr', Hfirst. split; [lia|]. split; [done|].
    intros m Hm. destruct (decide (m = S (os_round w))) as [->|Hne].
    + intros [Hq _]. apply quiet_filter in Hq. congruence.
    + apply Hfirst. lia.
Qed.

(** The buffers stay in place. *)
Lemma read_ready_buffers (ready : list Z) :
  forall (res res' : gmap string bytes) (w w' : os),
    buffers_ready res ->
    read_ready c fdmap ready res w = Returns res' w' ->
    buffers_ready res'.
Proof.
  induction ready as [|fd ready IH]; intros res res' w w' Hb.
  - by intros [= <- <-].
  - cbn [read_ready].
    bind_case (os_read c fd 512) w data w1 E; try done.
    destruct data as [|b data]; [by intros [= <- <-]|].
    destruct (fdmap !! fd) as [name|] eqn:En.
    2: { by rewrite (bind_raises _ _ _ _ _ (subscript_raises _ _ _ En)). }
    rewrite (bind_returns _ _ _ _ _ (subscript_returns _ _ _ _ En)).
    destruct (res !! name) as [old|] eqn:Eo.
    2: { by rewrite (bind_raises _ _ _ _ _ (subscript_raises _ _ _ Eo)). }
    rewrite (bind_returns _ _ _ _ _ (subscript_returns _ _ _ _ Eo)).
    apply IH. destruct Hb as [H1 H2]. split.
    + destruct (decide (name = "stdout")) as [->|Hne];
        [rewrite lookup_insert_eq | rewrite lookup_insert_ne]; done.
    + destruct (decide (name = "stderr")) as [->|Hne];
        [rewrite lookup_insert_eq | rewrite lookup_insert_ne]; done.
Qed.

Lemma poll_loop_buffers (fuel : nat) :
  forall (res res' : gmap string bytes) (w w' : os),
    buffers_ready res ->
    poll_loop c fuel mo me fdmap deadline res w = Returns res' w' ->
    buffers_ready res'.
Proof.
  induction fuel as [|fuel IH]; intros res res' w w' Hb; [done|].
  rewrite poll_loop_S.
  destruct (filter _ _) as [|fd ready] eqn:Ef.
  - destruct (status c (S (os_round w))); [by intros [= <- <-]|].
    destruct (deadline <? _); [by intros [= <- <-] | by apply IH].
  - destruct (read_ready _ _ _ _ _) as [res1 w1| | |] eqn:Er; try done.
    apply IH. by eapply read_ready_buffers.
Qed.

(** ** Rounds that do not leave the loop *)

Section Reads.

Hypothesis fdmap_mo : fdmap !! mo = Some "stdout".
Hypothesis fdmap_me : fdmap !! me = Some "stderr".

Lemma read_ready_returns (ready : list Z) :
  forall (res : gmap string bytes) (w : os),
    (forall fd, fd ∈ ready -> (fd = mo \/ fd = me) /\
                              readable c (os_round w) fd = true) ->
    buffers_ready res ->
    mo ∈ os_open w -> me ∈ os_open w ->
    reads_succeed c mo me (os_round w) ->
    exists res' w', read_ready c fdmap ready res w = Returns res' w'.
Proof.
  induction ready as [|fd ready IH]; intros res w Hin Hb Hmo Hme Hok.
  - by exists res, w.
  - cbn [read_ready].
    destruct (Hin fd) as [Hfd Hrd]; [by left|].
    destruct (Hok fd Hfd Hrd) as [bs Hbs].
    assert (fd ∈ os_open w) as Hopen by (by destruct Hfd as [->| ->]).
    assert (os_read c fd 512 w =
            Returns (take (Z.to_nat 512) bs)
              (record_call (Read fd 512 (Ok (take (Z.to_nat 512) bs))) w)) as E.
    { unfold os_read. rewrite decide_True by done. by rewrite Hbs. }
    rewrite (bind_returns _ _ _ _ _ E).
    destruct (take (Z.to_nat 512) bs) as [|b data]; [by eexists _, _|].
    assert (exists name, fdmap !! fd = Some name /\ is_Some (res !! name))
      as (name & En & [old Eo]).
    { destruct Hb. destruct Hfd as [->| ->]; eauto. }
    rewrite (bind_returns _ _ _ _ _ (subscript_returns _ _ _ _ En)).
    rewrite (bind_returns _ _ _ _ _ (subscript_returns _ _ _ _ Eo)).
    apply IH; try done.
    + intros fd' Hfd'. apply Hin. by right.
    + destruct Hb as [H1 H2]. split.
      * destruct (decide (name = "stdout")) as [->|Hne];
          [rewrite lookup_insert_eq | rewrite lookup_insert_ne]; done.
      * destruct (decide (name = "stderr")) as [->|Hne];
          [rewrite lookup_insert_eq | rewrite lookup_insert_ne]; done.
Qed.

(** If round [os_round w + k + 1] is one that leaves the loop, and the
    rounds before it are not and their reads succeed, the loop returns in
    that round. *)
Lemma poll_loop_reaches (k : nat) :
  forall (res : gmap string bytes) (w : os),
    buffers_ready res ->
    mo ∈ os_open w -> me ∈ os_open w ->
    (forall m, (os_round w < m <= os_round w + k)%nat ->
       ~ exit_round c mo me deadline m /\ reads_succeed c mo me m) ->
    exit_round c mo me deadline (os_round w + k + 1) ->
    exists res' w',
      poll_loop c (S k) mo me fdmap deadline res w = Returns res' w' /\
      os_round w' = (os_round w + k + 1)%nat.
Proof.
  induction k as [|k IH]; intros res w Hb Hmo Hme Hbefore Hexit.
  - rewrite poll_loop_S.
    replace (os_round w + 0 + 1)%nat with (S (os_round w)) in * by lia.
    destruct Hexit as [Hq Hexit]. rewrite (proj2 (quiet_filter _) Hq).
    destruct (status c (S (os_round w))) as [code|] eqn:Es.
    { eexists _, _. split; [done|]. cbn. lia. }
    destruct Hexit as [[? ?]|Hlt]; [done|].
    rewrite (proj2 (Z.ltb_lt _ _) Hlt). eexists _, _. split; [done|]. cbn. lia.
  - rewrite poll_loop_S.
    destruct (Hbefore (S (os_round w))) as [Hnot Hok]; [lia|].
    destruct (filter _ _) as [|fd ready] eqn:Ef.
    + apply quiet_filter in Ef.
      destruct (status c (S (os_round w))) as [code|] eqn:Es.
      { destruct Hnot. split; [done|]. left. by rewrite Es. }
      destruct (Z.ltb_spec deadline (clock c (S (os_round w)))) as [Hlt|Hge].
      { destruct Hnot. split; [done | by right]. }
      assert (exit_round c mo me deadline (os_round (round_idle c mo me w) + k + 1))
        as Hexit'.
      { replace (os_round (round_idle c mo me w) + k + 1)%nat
          with (os_round w + S k + 1)%nat by (cbn; lia). exact Hexit. }
      assert (forall m, (os_round (round_idle c mo me w) < m
                         <= os_round (round_idle c mo me w) + k)%nat ->
                ~ exit_round c mo me deadline m /\ reads_succeed c mo me m)
        as Hbefore'.
      { intros m Hm. apply Hbefore. cbn in Hm. lia. }
      destruct (IH res (round_idle c mo me w) Hb Hmo Hme Hbefore' Hexit')
        as (res' & w' & Hret & Hr).
      exists res', w'. split; [done|]. rewrite Hr. cbn. lia.
    + assert (forall fd', fd' ∈ fd :: ready ->
                (fd' = mo \/ fd' = me) /\
                readable c (os_round (round_opened c mo me w)) fd' = true) as Hin.
      { intros fd' Hfd'. rewrite <- Ef in Hfd'.
        apply list_elem_of_filter in Hfd' as [Hrd Hfd']. split; [|done].
        apply elem_of_cons in Hfd' as [->|Hfd']; [by left|].
        apply elem_of_cons in Hfd' as [->|Hfd']; [by right|].
        by apply elem_of_nil in Hfd'. }
      destruct (read_ready_returns (fd :: ready) res (round_opened c mo me w)
                  Hin Hb Hmo Hme Hok) as (res1 & w1 & Hread).
      pose proof (read_ready_within (fd :: ready) res (round_opened c mo me w))
        as [(Ho & _ & _) Hr1].
      rewrite Hread in Ho, Hr1 |- *. simpl in Ho, Hr1. cbn in Ho, Hr1.
      assert (exit_round c mo me deadline (os_round w1 + k + 1)) as Hexit'.
      { replace (os_round w1 + k + 1)%nat
          with (os_round w + S k + 1)%nat by lia. exact Hexit. }
      assert (forall m, (os_round w1 < m <= os_round w1 + k)%nat ->
                ~ exit_round c mo me deadline m /\ reads_succeed c mo me m)
        as Hbefore'.
      { intros m Hm. apply Hbefore. lia. }
      assert (buffers_ready res1) as Hb1 by (by eapply read_ready_buffers).
      rewrite <- Ho in Hmo, Hme.
      destruct (IH res1 w1 Hb1 Hmo Hme Hbefore' Hexit')
        as (res' & w' & Hret & Hr).
      exists res', w'. split; [done|]. rewrite Hr, Hr1. lia.
Qed.

End Reads.

(** Rounds in which nothing is readable, the child is still running and
    the deadline is not passed change nothing but the record of calls. *)
Lemma poll_loop_idle (k : nat) :
  forall (fuel : nat) (res : gmap string bytes) (w : os),
    (forall m, (os_round w < m <= os_round w + k)%nat ->
       quiet c mo me m /\ status c m = None /\ clock c m <= deadline) ->
    poll_loop c (k + fuel) mo me fdmap deadline res w =
    poll_loop c fuel mo me fdmap deadline res (Nat.iter k (round_idle c mo me) w).
Proof.
  induction k as [|k IH]; intros fuel res w Hidle; [done|].
  rewrite Nat.iter_succ_r. cbn [Nat.add]. rewrite poll_loop_S.
  destruct (Hidle (S (os_round w))) as (Hq & Hs & Hc); [lia|].
  rewrite (proj2 (quiet_filter _) Hq), Hs, (proj2 (Z.ltb_ge _ _) Hc).
  apply IH. intros m Hm. apply Hidle. cbn in Hm. lia.
Qed.

Lemma round_idle_state (w : os) :
  os_round (round_idle c mo me w) = S (os_round w) /\
  os_open (round_idle c mo me w) = os_open w.
Proof. done. Qed.

Lemma iter_round_idle (k : nat) (w : os) :
  os_round (Nat.iter k (round_idle c mo me) w) = (os_round w + k)%nat /\
  os_open (Nat.iter k (round_idle c mo me) w) = os_open w.
Proof.
  induction k as [|k [IH1 IH2]]; [split; [simpl; lia | done]|].
  rewrite Nat.iter_succ.
  destruct (round_idle_state (Nat.iter k (round_idle c mo me) w)) as [-> ->].
  rewrite IH1, IH2. split; [lia | done].
Qed.

End Loop.

(** ** Before the loop: the pseudo-terminals and the launch *)

Section Launch.

Variable c : child.

Lemma openpty_returns (w : os) :
  openpty w =
  Returns (fresh (os_open w), fresh ({[fresh (os_open w)]} ∪ os_open w))
    {| os_open := {[fresh (os_open w); fresh ({[fresh (os_open w)]} ∪ os_open w)]}
                  ∪ os_open w;
       os_round := os_round w;
       os_log := os_log w ++
         [Openpty (fresh (os_open w)) (fresh ({[fresh (os_open w)]} ∪ os_open w))] |}.
Proof. reflexivity. Qed.

Lemma openpty_fresh (w w' : os) (m s : Z) :
  openpty w = Returns (m, s) w' ->
  (m ∉ os_open w) /\ (s ∉ os_open w) /\ m <> s /\
  os_open w' = {[m; s]} ∪ os_open w /\ os_round w' = os_round w /\
  os_log w' = os_log w ++ [Openpty m s].
Proof.
  rewrite openpty_returns. intros [= <- <- <-].
  pose proof (is_fresh (os_open w)) as H1.
  pose proof (is_fresh ({[fresh (os_open w)]} ∪ os_open w)) as H2.
  apply not_elem_of_union in H2 as [H2 H3].
  apply not_elem_of_singleton in H2. done.
Qed.

Lemma launch_returns (open : gset Z) (cmd : list string) (bytes_input : bytes)
    (timeout : Z) :
  spawns c = true ->
  exists t w, launch c cmd bytes_input timeout (boot open) = Returns t w /\
              launched c open cmd bytes_input timeout t w.
Proof.
  intros Hsp. unfold launch.
  destruct (openpty (boot open)) as [[m1 s1] w1| | |] eqn:E1;
    try (by rewrite openpty_returns in E1).
  rewrite (bind_returns _ _ _ _ _ E1).
  destruct (openpty w1) as [[m2 s2] w2| | |] eqn:E2;
    try (by rewrite openpty_returns in E2).
  rewrite (bind_returns _ _ _ _ _ E2).
  destruct (openpty w2) as [[m3 s3] w3| | |] eqn:E3;
    try (by rewrite openpty_returns in E3).
  rewrite (bind_returns _ _ _ _ _ E3).
  apply openpty_fresh in E1 as (A1 & B1 & C1 & O1 & R1 & L1).
  apply openpty_fresh in E2 as (A2 & B2 & C2 & O2 & R2 & L2).
  apply openpty_fresh in E3 as (A3 & B3 & C3 & O3 & R3 & L3).
  cbn [boot os_open os_round os_log] in *.
  rewrite (bind_returns _ _ _ _ _ (time_time_returns c w3)).
  unfold subprocess_Popen at 1. unfold mbind at 1, M_bind at 1. rewrite Hsp.
  unfold os_write at 1. unfold mbind at 1, M_bind at 1.
  cbn [record_call os_open os_round os_log].
  assert (m3 ∈ os_open w3) as Hm3 by (rewrite O3; set_solver).
  rewrite (decide_True _ _ Hm3).
  eexists _, _. split; [reflexivity|].
  rewrite O1 in *. rewrite O2 in *.
  unfold launched.
  cbn [mo so me se mi si timeout_exact record_call os_open os_round os_log].
  split; [|split; [|split; [|split; [|split]]]].
  - repeat (constructor; [set_solver|]). constructor.
  - intros fd Hfd. set_solver.
  - rewrite O3. set_solver.
  - congruence.
  - by rewrite R3, R2, R1.
  - rewrite L3, L2, L1, R3, R2, R1. reflexivity.
Qed.

(** [launch] is a function: what it returns is what the lemma above
    describes. *)
Lemma launch_launched (open : gset Z) (cmd : list string) (bytes_input : bytes)
    (timeout : Z) (t : ptys) (w : os) :
  launch c cmd bytes_input timeout (boot open) = Returns t w ->
  launched c open cmd bytes_input timeout t w.
Proof.
  intros Hl. destruct (spawns c) eqn:Hsp.
  - destruct (launch_returns open cmd bytes_input timeout Hsp) as (t' & w' & Hl' & H).
    rewrite Hl in Hl'. by injection Hl' as <- <-.
  - exfalso. revert Hl. unfold launch.
    rewrite (bind_returns _ _ _ _ _ (openpty_returns _)).
    rewrite (bind_returns _ _ _ _ _ (openpty_returns _)).
    rewrite (bind_returns _ _ _ _ _ (openpty_returns _)).
    rewrite (bind_returns _ _ _ _ _ (time_time_returns c _)).
    unfold subprocess_Popen at 1. unfold mbind at 1, M_bind at 1.
    by rewrite Hsp.
Qed.

Lemma launched_fdmap (open : gset Z) (cmd : list string) (bytes_input : bytes)
    (timeout : Z) (t : ptys) (w : os) :
  launched c open cmd bytes_input timeout t w ->
  fdmap_of t !! mo t = Some "stdout" /\ fdmap_of t !! me t = Some "stderr" /\
  mo t ∈ os_open w /\ me t ∈ os_open w.
Proof.
  intros (Hnd & _ & Ho & _). unfold fdmap_of.
  assert (mi t <> mo t /\ me t <> mo t /\ mi t <> me t) as (H1 & H2 & H3).
  { repeat match goal with
           | H : NoDup (_ :: _) |- _ => apply NoDup_cons in H as [? ?]
           end. set_solver. }
  split; [|split; [|split]].
  - by rewrite lookup_insert_ne, lookup_insert_ne, lookup_insert_eq.
  - by rewrite lookup_insert_ne, lookup_insert_eq.
  - rewrite Ho. set_solver.
  - rewrite Ho. set_solver.
Qed.

(** ** After the loop: the descriptors are closed and the child waited for *)

Lemma close_all_returns (fds : list Z) :
  forall w : os,
    NoDup fds -> (forall fd, fd ∈ fds -> fd ∈ os_open w) ->
    exists w', close_all fds w = Returns tt w' /\
               os_open w' = os_open w ∖ list_to_set fds /\
               os_round w' = os_round w /\
               os_log w' = os_log w ++ (Close <$> fds).
Proof.
  induction fds as [|fd fds IH]; intros w Hnd Hopen.
  - exists w. split; [done|]. split; [set_solver|]. split; [done|].
    by rewrite app_nil_r.
  - apply NoDup_cons in Hnd as [Hfd Hnd]. cbn [close_all].
    assert (os_close fd w =
            Returns tt {| os_open := os_open w ∖ {[fd]}; os_round := os_round w;
                          os_log := os_log w ++ [Close fd] |}) as E.
    { unfold os_close. rewrite decide_True; [done|]. apply Hopen. by left. }
    rewrite (bind_returns _ _ _ _ _ E).
    destruct (IH {| os_open := os_open w ∖ {[fd]}; os_round := os_round w;
                    os_log := os_log w ++ [Close fd] |} Hnd)
      as (w' & Hc & Ho & Hr & Hl).
    { intros fd' Hfd'. cbn. apply elem_of_difference. split.
      - apply Hopen. by right.
      - intros ->%elem_of_singleton. done. }
    exists w'. split; [done|]. cbn in Ho, Hr, Hl. split; [|split; [done|]].
    + rewrite Ho. set_solver.
    + rewrite Hl, <- app_assoc. done.
Qed.

Lemma close_and_wait_outcome (t : ptys) (res : gmap string bytes) (w : os)
    (out err : bytes) :
  NoDup [si t; so t; se t; mi t; mo t; me t] ->
  (forall fd, fd ∈ [si t; so t; se t; mi t; mo t; me t] -> fd ∈ os_open w) ->
  res !! "stdout" = Some out -> res !! "stderr" = Some err ->
  exists w',
    close_and_wait c t res w =
      match exit_status c with
      | Some code => Returns (code, out, err) w'
      | None => Hangs w'
      end /\
    os_open w' = os_open w ∖ list_to_set [si t; so t; se t; mi t; mo t; me t] /\
    os_round w' = os_round w /\
    os_log w' = os_log w ++ [Close (si t); Close (so t); Close (se t);
                             Close (mi t); Close (mo t); Close (me t); Wait].
Proof.
  intros Hnd Hopen Hout Herr. unfold close_and_wait.
  destruct (close_all_returns _ w Hnd Hopen) as (w1 & Hc & Ho & Hr & Hl).
  rewrite (bind_returns _ _ _ _ _ Hc).
  exists (record_call Wait w1). split.
  - unfold mbind at 1, M_bind at 1. unfold p_wait.
    destruct (exit_status c) as [code|]; [|done].
    rewrite (bind_returns _ _ _ _ _ (subscript_returns _ _ _ _ Hout)).
    by rewrite (bind_returns _ _ _ _ _ (subscript_returns _ _ _ _ Herr)).
  - cbn. rewrite Ho, Hr, Hl, <- app_assoc. done.
Qed.

(** ** The three parts of [tty_capture] put together *)

Lemma empty_res_ready : buffers_ready empty_res.
Proof. split; by eexists. Qed.

Lemma tty_capture_left (fuel : nat) (open : gset Z) (cmd : list string)
    (bytes_input : bytes) (timeout : Z) (t : ptys) (w0 w1 : os)
    (res : gmap string bytes) :
  launch c cmd bytes_input timeout (boot open) = Returns t w0 ->
  poll_loop c fuel (mo t) (me t) (fdmap_of t) (timeout_exact t) empty_res w0
    = Returns res w1 ->
  exists out err w2,
    tty_capture c fuel cmd bytes_input timeout (boot open) =
      match exit_status c with
      | Some code => Returns (code, out, err) w2
      | None => Hangs w2
      end /\
    res !! "stdout" = Some out /\ res !! "stderr" = Some err /\
    (forall fd, fd ∈ [si t; so t; se t; mi t; mo t; me t] -> fd ∈ os_open w1) /\
    os_open w2 = open /\
    os_round w2 = os_round w1 /\
    os_log w2 = os_log w1 ++ [Close (si t); Close (so t); Close (se t);
                              Close (mi t); Close (mo t); Close (me t); Wait].
Proof.
  intros Hl Hp. pose proof (launch_launched _ _ _ _ _ _ Hl) as Hfacts.
  destruct Hfacts as (Hnd & Hnew & Ho & Hr & Hd & Hlog).
  pose proof (poll_loop_advances c (mo t) (me t) (fdmap_of t) (timeout_exact t)
                fuel empty_res w0) as (Ho1 & _ & _).
  rewrite Hp in Ho1. simpl in Ho1.
  destruct (poll_loop_buffers _ _ _ _ _ _ _ _ _ _ empty_res_ready Hp)
    as [[out Hout] [err Herr]].
  assert (forall fd, fd ∈ [si t; so t; se t; mi t; mo t; me t] -> fd ∈ os_open w1)
    as Hopen.
  { intros fd Hfd. rewrite Ho1, Ho. apply elem_of_union_l.
    by apply elem_of_list_to_set. }
  destruct (close_and_wait_outcome t res w1 out err Hnd Hopen Hout Herr)
    as (w2 & Hcw & Ho2 & Hr2 & Hl2).
  exists out, err, w2. split; [|repeat (split; [done|])].
  - unfold tty_capture. rewrite (bind_returns _ _ _ _ _ Hl).
    by rewrite (bind_returns _ _ _ _ _ Hp).
  - split; [|done]. rewrite Ho2, Ho1, Ho.
    apply set_eq. intros fd. rewrite elem_of_difference, elem_of_union.
    split.
    + intros [[HS|Hop] Hn]; done.
    + intros Hop. split; [by right|].
      intros HS%elem_of_list_to_set. exact (Hnew fd HS Hop).
Qed.

(** While the loop has not been left, or when a call in it has failed,
    [tty_capture] is where the loop is. *)
Lemma tty_capture_not_left (fuel : nat) (open : gset Z) (cmd : list string)
    (bytes_input : bytes) (timeout : Z) (t : ptys) (w0 : os) :
  launch c cmd bytes_input timeout (boot open) = Returns t w0 ->
  match poll_loop c fuel (mo t) (me t) (fdmap_of t) (timeout_exact t)
          empty_res w0 with
  | Returns _ _ => True
  | Raises e w1 =>
      tty_capture c fuel cmd bytes_input timeout (boot open) = Raises e w1
  | Hangs w1 =>
      tty_capture c fuel cmd bytes_input timeout (boot open) = Hangs w1
  | Running w1 =>
      tty_capture c fuel cmd bytes_input timeout (boot open) = Running w1
  end.
Proof.
  intros Hl. unfold tty_capture. rewrite (bind_returns _ _ _ _ _ Hl).
  destruct (poll_loop _ _ _ _ _ _ _ _) eqn:Hp; [done|..].
  - by rewrite (bind_raises _ _ _ _ _ Hp).
  - by rewrite (bind_hangs _ _ _ _ Hp).
  - by rewrite (bind_running _ _ _ _ Hp).
Qed.

End Launch.

(** ** The [for] loop over the ready descriptors *)

(** When the [for] loop returns, it has read a run of descriptors from the
    front of the ready list.  Either it read them all, none giving zero
    bytes, and appended what each gave; or its last read gave zero bytes,
    the reads before it gave some and were appended, and the descriptors
    after it in the list were not read. *)
Lemma os_read_returns (c : child) (fd n : Z) (data : bytes) (w w' : os) :
  os_read c fd n w = Returns data w' ->
  w' = record_call (Read fd n (Ok data)) w.
Proof.
  unfold os_read. repeat case_match; try done. by intros [= <- <-].
Qed.

Lemma read_ready_reads (c : child) (fdmap : gmap Z string) (ready : list Z) :
  forall (res res' : gmap string bytes) (w w' : os),
    read_ready c fdmap ready res w = Returns res' w' ->
    exists reads : list (Z * bytes),
      Forall (fun r => r.2 <> []) reads /\
      res' = foldl (append_read fdmap) res reads /\
      ((reads.*1 = ready /\ os_log w' = os_log w ++ (read_call <$> reads)) \/
       (exists fd after,
          ready = reads.*1 ++ fd :: after /\
          os_log w' =
            os_log w ++ (read_call <$> reads) ++ [Read fd 512 (Ok [])])).
Proof.
  induction ready as [|fd ready IH]; intros res res' w w'.
  - intros [= <- <-]. exists []. split; [constructor|]. split; [done|].
    left. split; [done|]. by rewrite app_nil_r.
  - cbn [read_ready].
    bind_case (os_read c fd 512) w data w1 E; try done.
    apply os_read_returns in E as ->.
    destruct data as [|b data].
    { intros [= <- <-]. exists []. split; [constructor|]. split; [done|].
      right. by exists fd, ready. }
    destruct (fdmap !! fd) as [name|] eqn:En.
    2: { by rewrite (bind_raises _ _ _ _ _ (subscript_raises _ _ _ En)). }
    rewrite (bind_returns _ _ _ _ _ (subscript_returns _ _ _ _ En)).
    destruct (res !! name) as [old|] eqn:Eo.
    2: { by rewrite (bind_raises _ _ _ _ _ (subscript_raises _ _ _ Eo)). }
    rewrite (bind_returns _ _ _ _ _ (subscript_returns _ _ _ _ Eo)).
    intros (reads & Hne & Hres & Hlog)%IH.
    exists ((fd, b :: data) :: reads). split; [by constructor|]. split.
    { cbn [foldl]. unfold append_read at 2. cbn [fst snd]. by rewrite En, Eo. }
    cbn [record_call os_log] in Hlog.
    destruct Hlog as [[Hall Hlog]|(fd' & after & Hcut & Hlog)].
    + left. split; [by rewrite fmap_cons, Hall|].
      by rewrite Hlog, <- app_assoc.
    + right. exists fd', after. split; [by rewrite fmap_cons, Hcut|].
      by rewrite Hlog, <- app_assoc.
Qed.

(** ** Rounds with something to read never leave the loop *)

Lemma poll_loop_busy (c : child) (mo me : Z) (fdmap : gmap Z string)
    (deadline : Z) (fuel : nat) :
  fdmap !! mo = Some "stdout" -> fdmap !! me = Some "stderr" ->
  forall (res : gmap string bytes) (w : os),
    buffers_ready res -> mo ∈ os_open w -> me ∈ os_open w ->
    (forall m, (os_round w < m)%nat ->
       ~ quiet c mo me m /\ reads_succeed c mo me m) ->
    exists w', poll_loop c fuel mo me fdmap deadline res w = Running w' /\
               os_round w' = (os_round w + fuel)%nat.
Proof.
  intros Hfmo Hfme. induction fuel as [|fuel IH]; intros res w Hb Hmo Hme Hbusy.
  - exists w. split; [done | simpl; lia].
  - rewrite poll_loop_S.
    destruct (Hbusy (S (os_round w))) as [Hnq Hok]; [lia|].
    destruct (filter _ _) as [|fd ready] eqn:Ef;
      [by apply quiet_filter in Ef|].
    assert (forall fd', fd' ∈ fd :: ready ->
              (fd' = mo \/ fd' = me) /\
              readable c (os_round (round_opened c mo me w)) fd' = true) as Hin.
    { intros fd' Hfd'. rewrite <- Ef in Hfd'.
      apply list_elem_of_filter in Hfd' as [Hrd Hfd']. split; [|done].
      apply elem_of_cons in Hfd' as [->|Hfd']; [by left|].
      apply elem_of_cons in Hfd' as [->|Hfd']; [by right|].
      by apply elem_of_nil in Hfd'. }
    destruct (read_ready_returns c mo me fdmap Hfmo Hfme (fd :: ready) res
                (round_opened c mo me w) Hin Hb Hmo Hme Hok)
      as (res1 & w1 & Hread).
    pose proof (read_ready_within c mo me fdmap (fd :: ready) res
                  (round_opened c mo me w)) as [(Ho & _ & _) Hr1].
    rewrite Hread in Ho, Hr1 |- *. simpl in Ho, Hr1. cbn in Ho, Hr1.
    assert (buffers_ready res1) as Hb1 by (by eapply read_ready_buffers).
    rewrite <- Ho in Hmo, Hme.
    destruct (IH res1 w1 Hb1 Hmo Hme) as (w' & Hrun & Hr).
    { intros m Hm. apply Hbusy. lia. }
    exists w'. split; [done|]. rewrite Hr, Hr1. lia.
Qed.

(** ** Fuel and the whole routine *)

Lemma tty_capture_fuel_le (c : child) (fuel fuel' : nat) (cmd : list string)
    (bytes_input : bytes) (timeout : Z) (w : os) :
  (fuel <= fuel')%nat ->
  ended (tty_capture c fuel cmd bytes_input timeout w) ->
  tty_capture c fuel' cmd bytes_input timeout w =
  tty_capture c fuel cmd bytes_input timeout w.
Proof.
  intros Hle. unfold tty_capture.
  bind_case (launch c cmd bytes_input timeout) w t w0 El;
    [|by rewrite ?(bind_raises _ _ _ _ _ El), ?(bind_hangs _ _ _ _ El),
               ?(bind_running _ _ _ _ El)..].
  rewrite (bind_returns _ _ _ _ _ El).
  intros Hend.
  assert (ended (poll_loop c fuel (mo t) (me t) (fdmap_of t) (timeout_exact t)
                   empty_res w0)) as Hloop.
  { destruct (poll_loop c fuel _ _ _ _ _ _) eqn:Ep; try done.
    by rewrite (bind_running _ _ _ _ Ep) in Hend. }
  unfold mbind, M_bind.
  by rewrite (poll_loop_fuel_le c _ _ _ _ fuel fuel' empty_res w0 Hle Hloop).
Qed.

(** The first round in which the clock is beyond the deadline, if there is
    one up to round [N]. *)
Lemma first_elapsed_round (c : child) (deadline : Z) (N : nat) :
  (exists n, (1 <= n <= N)%nat /\ deadline < clock c n /\
             forall m, (1 <= m < n)%nat -> clock c m <= deadline) \/
  (forall m, (1 <= m <= N)%nat -> clock c m <= deadline).
Proof.
  induction N as [|N [(n & Hn & Hlt & Hfirst)|Hnone]].
  - right. intros m Hm. lia.
  - left. exists n. split; [lia | done].
  - destruct (Z_lt_le_dec deadline (clock c (S N))) as [Hlt|Hle].
    + left. exists (S N). split; [lia|]. split; [done|].
      intros m Hm. apply Hnone. lia.
    + right. intros m Hm. destruct (decide (m = S N)) as [->|Hne]; [done|].
      apply Hnone. lia.
Qed.

(** ** The properties of the specification *)

(** C2, as the code has it.  For a child that writes nothing and is still
    running while the deadline is not passed, with every [select] waiting out
    its 40 ms: the loop is left in the first round whose clock is beyond the
    deadline, after at most [timeout / 40 + 1] rounds, with both buffers
    empty; the six descriptors are then closed, and the child is waited for.
    [tty_capture] returns, with the exit status and two empty buffers, if the
    child exits, and stays blocked in the wait if it never does. *)
Theorem quiet_child_is_waited_for (c : child) (open : gset Z)
    (cmd : list string) (bytes_input : bytes) (timeout : Z) :
  spawns c = true ->
  (forall n fd, readable c n fd = false) ->
  0 <= timeout ->
  (forall n, clock c O + select_timeout * Z.of_nat n <= clock c n) ->
  (forall n, clock c n <= clock c O + timeout -> status c n = None) ->
  exists n w,
    (1 <= n <= Z.to_nat (timeout / select_timeout) + 1)%nat /\
    clock c O + timeout < clock c n /\
    (forall m, (1 <= m < n)%nat -> clock c m <= clock c O + timeout) /\
    os_round w = n /\ os_open w = open /\
    forall fuel, (n <= fuel)%nat ->
      tty_capture c fuel cmd bytes_input timeout (boot open) =
        match exit_status c with
        | Some code => Returns (code, [], []) w
        | None => Hangs w
        end.
Proof.
  intros Hsp Hquiet Htimeout Hclock Hstatus.
  destruct (launch_returns c open cmd bytes_input timeout Hsp)
    as (t & w0 & Hl & Hfacts).
  pose proof Hfacts as (_ & _ & _ & Hr0 & Hd & _).
  set (N := (Z.to_nat (timeout / select_timeout) + 1)%nat).
  destruct (first_elapsed_round c (clock c O + timeout) N)
    as [(n & Hn & Hlt & Hfirst)|Hnone].
  2: { exfalso. specialize (Hnone N). specialize (Hclock N).
       assert (timeout < select_timeout * Z.of_nat N).
       { unfold N, select_timeout in *.
         rewrite Nat2Z.inj_add, Z2Nat.id by (apply Z.div_pos; lia).
         pose proof (Z.mul_succ_div_gt timeout 40). lia. }
       assert (1 <= N <= N)%nat by (unfold N; lia). specialize (Hnone H0). lia. }
  assert (exists res1 w1,
            poll_loop c n (mo t) (me t) (fdmap_of t) (timeout_exact t) empty_res w0
              = Returns res1 w1 /\ res1 = empty_res /\ os_round w1 = n)
    as (res1 & w1 & Hp & -> & Hr1).
  { pose proof (poll_loop_idle c (mo t) (me t) (fdmap_of t) (timeout_exact t)
                  (n - 1) 1 empty_res w0) as Hidle.
    replace (n - 1 + 1)%nat with n in Hidle by lia.
    rewrite Hidle.
    2: { intros m Hm. rewrite Hr0 in Hm. split; [by split|].
         rewrite Hd. split; [apply Hstatus|]; apply Hfirst; lia. }
    destruct (iter_round_idle c (mo t) (me t) (n - 1) w0) as [Hri _].
    rewrite poll_loop_S, Hri, Hr0.
    replace (S (0 + (n - 1))) with n by lia.
    rewrite (proj2 (quiet_filter c (mo t) (me t) n)) by (by split).
    destruct (status c n).
    - eexists _, _. split; [done|]. split; [done|]. cbn. lia.
    - rewrite Hd, (proj2 (Z.ltb_lt _ _) Hlt).
      eexists _, _. split; [done|]. split; [done|]. cbn. lia. }
  destruct (tty_capture_left c n open cmd bytes_input timeout t w0 w1 empty_res Hl Hp)
    as (out & err & w2 & Hrun & Hout & Herr & _ & Ho2 & Hr2 & _).
  assert (out = []) as -> by (revert Hout; vm_compute; congruence).
  assert (err = []) as -> by (revert Herr; vm_compute; congruence).
  exists n, w2. split; [done|]. split; [done|]. split; [done|].
  split; [congruence|]. split; [done|].
  intros fuel Hfuel. rewrite <- Hrun. apply tty_capture_fuel_le; [done|].
  rewrite Hrun. by destruct (exit_status c).
Qed.

Lemma quiet_child_is_waited_for_witness :
  exists n w,
    (1 <= n <= 126)%nat /\
    os_round w = n /\ os_open w = std_fds /\
    forall fuel, (n <= fuel)%nat ->
      tty_capture sleeping_child fuel ["sleep"; "1000"] [] 5000 (boot std_fds)
      = Hangs w.
Proof.
  destruct (quiet_child_is_waited_for sleeping_child std_fds ["sleep"; "1000"]
              [] 5000) as (n & w & Hn & _ & _ & Hr & Ho & Hrun).
  - reflexivity.
  - intros n fd. reflexivity.
  - lia.
  - intros n. unfold select_timeout, sleeping_child, clock. lia.
  - intros n _. reflexivity.
  - exists n, w. split; [exact Hn|]. split; [exact Hr|]. split; [exact Ho|].
    exact Hrun.
Defined.

(** C2 as stated fails: for a child that sleeps for ever, [tty_capture]
    leaves the loop once the deadline is passed, closes the descriptors, and
    then stays in [p.wait()]: it never returns. *)
Lemma sleeping_child_is_waited_for_ever :
  (exists w,
     tty_capture sleeping_child 126 ["sleep"; "1000"] [] 5000 (boot std_fds)
       = Hangs w /\
     os_round w = 126%nat /\ last (os_log w) = Some Wait) /\
  (forall fuel r w,
     tty_capture sleeping_child fuel ["sleep"; "1000"] [] 5000 (boot std_fds)
       <> Returns r w).
Proof.
  assert (tty_capture sleeping_child 126 ["sleep"; "1000"] [] 5000 (boot std_fds)
          = Hangs (world_of (tty_capture sleeping_child 126 ["sleep"; "1000"] []
                               5000 (boot std_fds)))) as H0
    by (vm_compute; reflexivity).
  split.
  - eexists. split; [exact H0|]. split; vm_compute; reflexivity.
  - intros fuel r w Hret.
    destruct (le_ge_dec fuel 126) as [Hle|Hge].
    + pose proof (tty_capture_fuel_le sleeping_child fuel 126 ["sleep"; "1000"]
                    [] 5000 (boot std_fds) Hle) as Hfuel.
      rewrite Hret, H0 in Hfuel. by specialize (Hfuel I).
    + pose proof (tty_capture_fuel_le sleeping_child 126 fuel ["sleep"; "1000"]
                    [] 5000 (boot std_fds) Hge) as Hfuel.
      rewrite Hret, H0 in Hfuel. by specialize (Hfuel I).
Qed.

(** C1, as the code has it.  The polling loop is left in the first round in
    which [select] reports no ready descriptor and, in that round, the child
    has exited or the deadline is passed: it is left only there, and it is
    left there whenever the reads of the rounds before succeed.  The deadline
    being passed does not by itself leave the loop: while every round has a
    ready descriptor, the loop does not return. *)
Theorem loop_left_in_first_quiet_exit_round (c : child) (mo me : Z)
    (fdmap : gmap Z string) (deadline : Z) (res : gmap string bytes) (w : os) :
  (forall fuel res' w',
     poll_loop c fuel mo me fdmap deadline res w = Returns res' w' ->
     (os_round w < os_round w')%nat /\
     exit_round c mo me deadline (os_round w') /\
     forall m, (os_round w < m < os_round w')%nat ->
       ~ exit_round c mo me deadline m) /\
  (forall n,
     fdmap !! mo = Some "stdout" -> fdmap !! me = Some "stderr" ->
     buffers_ready res -> mo ∈ os_open w -> me ∈ os_open w ->
     (os_round w < n)%nat ->
     exit_round c mo me deadline n ->
     (forall m, (os_round w < m < n)%nat ->
        ~ exit_round c mo me deadline m /\ reads_succeed c mo me m) ->
     forall fuel, (n - os_round w <= fuel)%nat ->
       exists res' w',
         poll_loop c fuel mo me fdmap deadline res w = Returns res' w' /\
         os_round w' = n) /\
  ((forall m, (os_round w < m)%nat -> ~ quiet c mo me m) ->
   forall fuel res' w',
     poll_loop c fuel mo me fdmap deadline res w <> Returns res' w').
Proof.
  split; [|split].
  - intros fuel res' w'. apply poll_loop_returns.
  - intros n Hfmo Hfme Hb Hmo Hme Hn Hexit Hbefore fuel Hfuel.
    destruct (poll_loop_reaches c mo me fdmap deadline Hfmo Hfme
                (n - os_round w - 1) res w Hb Hmo Hme)
      as (res' & w' & Hret & Hr).
    { intros m Hm. apply Hbefore. lia. }
    { by replace (os_round w + (n - os_round w - 1) + 1)%nat with n by lia. }
    exists res', w'. split; [|lia].
    rewrite (poll_loop_fuel_le c mo me fdmap deadline
               (S (n - os_round w - 1)) fuel); [done | lia |].
    by rewrite Hret.
  - intros Hbusy fuel res' w' (Hr & [Hq _] & _)%poll_loop_returns.
    by apply (Hbusy (os_round w')).
Qed.

Lemma loop_left_in_first_quiet_exit_round_witness :
  exists res' w',
    poll_loop echo_child 4 3 5
      (fdmap_of {| mo := 3; so := 4; me := 5; se := 6; mi := 7; si := 8;
                   timeout_exact := 6000 |})
      6000 empty_res
      (world_of (launch echo_child ["cat"] hello 5000 (boot std_fds)))
    = Returns res' w' /\ os_round w' = 2%nat.
Proof.
  apply (proj1 (proj2 (loop_left_in_first_quiet_exit_round echo_child 3 5
           (fdmap_of {| mo := 3; so := 4; me := 5; se := 6; mi := 7; si := 8;
                        timeout_exact := 6000 |})
           6000 empty_res
           (world_of (launch echo_child ["cat"] hello 5000 (boot std_fds)))))
         2%nat).
  - reflexivity.
  - reflexivity.
  - split; eexists; reflexivity.
  - vm_compute. reflexivity.
  - vm_compute. reflexivity.
  - vm_compute. lia.
  - split; [split; reflexivity|]. left. eexists. reflexivity.
  - intros m Hm. assert (m = 1%nat) as -> by (vm_compute in Hm; lia).
    split.
    + intros [[Hq _] _]. vm_compute in Hq. discriminate.
    + intros fd _ _. eexists. reflexivity.
  - vm_compute. lia.
Defined.

(** C1 as stated fails: a child that never stops writing keeps the loop
    going for ever, although the deadline is passed from round 126 on. *)
Lemma timeout_alone_does_not_end_the_loop :
  (forall n, (125 < n)%nat -> clock chatty_child 0 + 5000 < clock chatty_child n) /\
  (forall fuel, exists w,
     tty_capture chatty_child fuel ["yes"] [] 5000 (boot std_fds) = Running w /\
     os_round w = fuel).
Proof.
  split; [intros n Hn; cbn; lia|]. intros fuel.
  pose (t0 := {| mo := 3; so := 4; me := 5; se := 6; mi := 7; si := 8;
                 timeout_exact := 6000 |}).
  pose (w0 := world_of (launch chatty_child ["yes"] [] 5000 (boot std_fds))).
  assert (launch chatty_child ["yes"] [] 5000 (boot std_fds) = Returns t0 w0)
    as Hl by (vm_compute; reflexivity).
  destruct (poll_loop_busy chatty_child 3 5 (fdmap_of t0) 6000 fuel
              eq_refl eq_refl empty_res w0 empty_res_ready)
    as (w' & Hrun & Hr).
  - vm_compute. reflexivity.
  - vm_compute. reflexivity.
  - intros m _. split.
    + intros [Hq _]. vm_compute in Hq. discriminate.
    + intros fd _ _. eexists. reflexivity.
  - exists w'. split; [|exact Hr].
    pose proof (tty_capture_not_left chatty_child fuel std_fds ["yes"] [] 5000
                  t0 w0 Hl) as H.
    change (mo t0) with 3 in H. change (me t0) with 5 in H.
    change (timeout_exact t0) with 6000 in H. by rewrite Hrun in H.
Qed.

(** C3, as the code has it.  Every readiness wait of the loop is on the same
    two controlling descriptors, whatever the reads before it gave: a
    descriptor whose read gave zero bytes is waited on again.  And a read of
    zero bytes is the last read of its round: what the descriptors before it
    in the ready list gave has been appended to their buffers, and the
    descriptors after it are not read in that round. *)
Theorem zero_byte_read_ends_the_round (c : child) (mo me : Z)
    (fdmap : gmap Z string) (deadline : Z) :
  (forall fuel res w rlist timeout ready,
     Select rlist timeout ready
       ∈ os_log (world_of (poll_loop c fuel mo me fdmap deadline res w)) ->
     Select rlist timeout ready ∈ os_log w \/ rlist = [mo; me]) /\
  (forall ready res res' w w',
     read_ready c fdmap ready res w = Returns res' w' ->
     exists reads : list (Z * bytes),
       Forall (fun r => r.2 <> []) reads /\
       res' = foldl (append_read fdmap) res reads /\
       ((reads.*1 = ready /\ os_log w' = os_log w ++ (read_call <$> reads)) \/
        (exists fd after,
           ready = reads.*1 ++ fd :: after /\
           os_log w' =
             os_log w ++ (read_call <$> reads) ++ [Read fd 512 (Ok [])]))).
Proof.
  split.
  - intros fuel res w rlist timeout ready Hin.
    destruct (poll_loop_advances c mo me fdmap deadline fuel res w)
      as (_ & _ & l & Hlog & Hcalls).
    rewrite Hlog in Hin. apply elem_of_app in Hin as [Hin|Hin]; [by left|].
    right. rewrite Forall_forall in Hcalls. by destruct (Hcalls _ Hin).
  - intros ready res res' w w'. apply read_ready_reads.
Qed.

Lemma zero_byte_read_ends_the_round_witness :
  exists reads : list (Z * bytes),
    Forall (fun r => r.2 <> []) reads /\
    empty_res = foldl (append_read {[3 := "stdout"; 5 := "stderr"]}) empty_res reads /\
    ((reads.*1 = [3; 5] /\
      os_log (record_call (Read 3 512 (Ok [])) (boot {[3; 5]}))
        = os_log (boot {[3; 5]}) ++ (read_call <$> reads)) \/
     (exists fd after,
        [3; 5] = reads.*1 ++ fd :: after /\
        os_log (record_call (Read 3 512 (Ok [])) (boot {[3; 5]})) =
          os_log (boot {[3; 5]}) ++ (read_call <$> reads) ++ [Read fd 512 (Ok [])])).
Proof.
  apply (proj2 (zero_byte_read_ends_the_round eof_child 3 5
                  {[3 := "stdout"; 5 := "stderr"]} 6000)
           [3; 5] empty_res empty_res (boot {[3; 5]})
           (record_call (Read 3 512 (Ok [])) (boot {[3; 5]}))).
  vm_compute. reflexivity.
Defined.

(** C3 as stated fails: with stdout giving zero bytes while stderr has
    data, stdout is waited on again in the next round, and stderr, although
    reported ready, is not read; the run ends with an empty stderr buffer. *)
Lemma zero_byte_descriptor_is_polled_again :
  exists w,
    tty_capture eof_child 5 ["cmd"] [] 5000 (boot std_fds) = Returns (0, [], []) w /\
    os_log w =
      [Openpty 3 4; Openpty 5 6; Openpty 7 8; Time 1000;
       Popen ["cmd"] 8 4 6; Write 7 [];
       Select [3; 5] 40 [3; 5]; Read 3 512 (Ok []);
       Select [3; 5] 40 [3; 5]; Read 3 512 (Ok []);
       Select [3; 5] 40 []; Poll (Some 0);
       Close 8; Close 4; Close 6; Close 7; Close 3; Close 5; Wait] /\
    polled_after_eof (os_log w) = true /\
    ready_all_read (os_log w) = false.
Proof.
  eexists. split; [vm_compute; reflexivity|].
  split; [reflexivity|]. split; vm_compute; reflexivity.
Qed.

Lemma loop_call_no_signal (mo me : Z) (e : syscall) :
  loop_call mo me e -> is_signal e = false.
Proof. by destruct e. Qed.

(** C9. Whenever the polling loop is left, because the child has exited or
    because the deadline is passed, [tty_capture] closes the six descriptors
    of the three pseudo-terminals, which were all open until then, and only
    then waits for the child; no call it makes sends the child a signal. *)
Theorem descriptors_closed_before_wait (c : child) (fuel : nat) (open : gset Z)
    (cmd : list string) (bytes_input : bytes) (timeout : Z) (t : ptys)
    (w0 w1 : os) (res : gmap string bytes) :
  launch c cmd bytes_input timeout (boot open) = Returns t w0 ->
  poll_loop c fuel (mo t) (me t) (fdmap_of t) (timeout_exact t) empty_res w0
    = Returns res w1 ->
  exists out err w2,
    tty_capture c fuel cmd bytes_input timeout (boot open) =
      match exit_status c with
      | Some code => Returns (code, out, err) w2
      | None => Hangs w2
      end /\
    exit_round c (mo t) (me t) (timeout_exact t) (os_round w1) /\
    (forall fd, fd ∈ [si t; so t; se t; mi t; mo t; me t] -> fd ∈ os_open w1) /\
    (forall fd, Close fd ∉ os_log w1) /\ (Wait ∉ os_log w1) /\
    os_log w2 = os_log w1 ++ [Close (si t); Close (so t); Close (se t);
                              Close (mi t); Close (mo t); Close (me t); Wait] /\
    os_open w2 = open /\
    Forall (fun e => is_signal e = false) (os_log w2).
Proof.
  intros Hl Hp.
  destruct (tty_capture_left c fuel open cmd bytes_input timeout t w0 w1 res Hl Hp)
    as (out & err & w2 & Hrun & _ & _ & Hopen & Ho2 & _ & Hlog2).
  destruct (launch_launched _ _ _ _ _ _ _ Hl) as (_ & _ & _ & _ & _ & Hlog0).
  pose proof (poll_loop_advances c (mo t) (me t) (fdmap_of t) (timeout_exact t)
                fuel empty_res w0) as (_ & _ & l & Hlog1 & Hl1).
  rewrite Hp in Hlog1. simpl in Hlog1.
  destruct (poll_loop_returns _ _ _ _ _ _ _ _ _ _ Hp) as (_ & Hexit & _).
  assert (Forall (fun e => is_signal e = false /\ e <> Wait /\
                           forall fd, e <> Close fd) (os_log w1)) as Hcalls.
  { rewrite Hlog1, Hlog0. apply Forall_app. split.
    - repeat constructor; done.
    - eapply Forall_impl; [exact Hl1|]. intros e He. by destruct e. }
  exists out, err, w2. split; [done|]. split; [done|]. split; [done|].
  rewrite Forall_forall in Hcalls.
  split; [|split; [|split; [done|split; [done|]]]].
  - intros fd Hfd. destruct (Hcalls _ Hfd) as (_ & _ & Hc). by apply (Hc fd).
  - intros Hw. by destruct (Hcalls _ Hw) as (_ & Hc & _).
  - rewrite Hlog2. apply Forall_app. split.
    + apply Forall_forall. intros e He. by destruct (Hcalls _ He).
    + repeat constructor.
Qed.

Lemma descriptors_closed_before_wait_witness :
  exists out err w2,
    tty_capture echo_child 5 ["cat"] hello 5000 (boot std_fds) =
      Returns (0, out, err) w2 /\
    os_open w2 = std_fds /\
    Forall (fun e => is_signal e = false) (os_log w2).
Proof.
  destruct (descriptors_closed_before_wait echo_child 5 std_fds ["cat"] hello 5000
              {| mo := 3; so := 4; me := 5; se := 6; mi := 7; si := 8;
                 timeout_exact := 6000 |}
              (world_of (launch echo_child ["cat"] hello 5000 (boot std_fds)))
              (world_of (poll_loop echo_child 5 3 5
                           (fdmap_of {| mo := 3; so := 4; me := 5; se := 6;
                                        mi := 7; si := 8; timeout_exact := 6000 |})
                           6000 empty_res
                           (world_of (launch echo_child ["cat"] hello 5000
                                        (boot std_fds)))))
              (<["stdout" := hello]> empty_res))
    as (out & err & w2 & Hrun & _ & _ & _ & _ & _ & Ho & Hsig).
  - vm_compute. reflexivity.
  - vm_compute. reflexivity.
  - exists out, err, w2. split; [exact Hrun|]. split; [exact Ho | exact Hsig].
Defined.

End TtyCaptureFacts.

(** * Facts about the process environment *)

Module EnvironFacts.
Import PatternMatch Environ PatternMatchFacts.

(** ** [make_env] *)

(** Going through keys that [merge_env] has never fails and gives, key by
    key, the value of [merge_env] for the keys gone through and the value of
    [env] for the others. *)
Lemma merge_keys_lookup (merge_env : gmap string string) (keys : list string) :
  forall env : gmap string string,
    (forall k, k ∈ keys -> is_Some (merge_env !! k)) ->
    exists r, merge_keys keys merge_env env = Ok r /\
      forall k, r !! k = if decide (k ∈ keys) then merge_env !! k else env !! k.
Proof.
  induction keys as [|key keys IH]; intros env Hkeys.
  - exists env. split; [done|]. intros k. rewrite decide_False; [done|].
    apply not_elem_of_nil.
  - destruct (Hkeys key) as [value Hv]; [by left|].
    cbn [merge_keys]. rewrite Hv.
    destruct (IH (<[key := value]> env)) as (r & Hr & Hlook).
    { intros k Hk. apply Hkeys. by right. }
    exists r. split; [done|]. intros k. rewrite Hlook.
    destruct (decide (k ∈ keys)) as [Hin|Hnin].
    + rewrite decide_True; [done | by right].
    + destruct (decide (k = key)) as [->|Hne].
      * rewrite decide_True by (by left). by rewrite lookup_insert_eq.
      * rewrite decide_False.
        -- by rewrite lookup_insert_ne.
        -- intros [?|?]%elem_of_cons; done.
Qed.

(** X1. In whatever order the keys of [merge_env] are gone through, and
    however often, the loop of [make_env] never raises and gives the
    environment in which every key of [merge_env] has the value of
    [merge_env] and every other key the value it has in [env]; so does
    [make_env], with [os.environ] for a missing [env] and nothing to merge
    for a missing [merge_env]. *)
Theorem make_env_overrides :
  (forall (keys : list string) (merge_env env : gmap string string),
     (forall k, k ∈ keys <-> is_Some (merge_env !! k)) ->
     merge_keys keys merge_env env = Ok (merge_env ∪ env)) /\
  (forall (os_environ : gmap string string)
          (merge_env env : option (gmap string string)),
     make_env os_environ merge_env env =
       Ok (default ∅ merge_env ∪ default os_environ env)).
Proof.
  assert (forall (keys : list string) (merge_env env : gmap string string),
     (forall k, k ∈ keys <-> is_Some (merge_env !! k)) ->
     merge_keys keys merge_env env = Ok (merge_env ∪ env)) as Hloop.
  { intros keys merge_env env Hkeys.
    destruct (merge_keys_lookup merge_env keys env) as (r & -> & Hlook).
    { intros k Hk. by apply Hkeys. }
    f_equal. apply map_eq. intros k. rewrite Hlook, lookup_union.
    destruct (decide (k ∈ keys)) as [Hin|Hnin].
    - apply Hkeys in Hin as [v ->]. by destruct (env !! k).
    - destruct (merge_env !! k) as [v|] eqn:Ek.
      + destruct Hnin. apply Hkeys. by exists v.
      + by destruct (env !! k). }
  split; [exact Hloop|].
  intros os_environ merge_env env. unfold make_env. apply Hloop.
  intros k. rewrite list_elem_of_fmap. split.
  - intros ([k' v] & -> & Hin). exists v. by apply elem_of_map_to_list.
  - intros [v Hv]. exists (k, v). split; [done|]. by apply elem_of_map_to_list.
Qed.

Lemma make_env_overrides_witness :
  merge_keys ["B"; "A"; "B"] {["A" := "3"; "B" := "2"]} {["A" := "1"; "C" := "0"]}
  = Ok ({["A" := "3"; "B" := "2"]} ∪ {["A" := "1"; "C" := "0"]}).
Proof.
  apply (proj1 make_env_overrides).
  intros k. rewrite !elem_of_cons, elem_of_nil.
  destruct (decide (k = "A")) as [->|HA]; [split; [by eexists | auto]|].
  destruct (decide (k = "B")) as [->|HB]; [split; [by eexists | auto]|].
  split; [intros [?|[?|[?|[]]]]; done|].
  intros [v Hv]. exfalso. revert Hv.
  rewrite lookup_insert_ne, lookup_singleton_ne by done. done.
Defined.

(** ** [add_env_path] *)

(** What a list object holds once [extra] has been added to it. *)
Lemma add_dirs_extra (dirs_right : list string) :
  forall (l : dir_list) (passed : list string),
    exists extra,
      add_dirs dirs_right l passed =
        (match l with Made dirs => Made (dirs ++ extra) | Passed => Passed end,
         match l with Made _ => passed | Passed => passed ++ extra end) /\
      extra `sublist_of` dirs_right /\ NoDup extra /\
      (forall d, d ∈ extra -> d ∉ content l passed) /\
      (forall d, d ∈ dirs_right -> d ∈ content l passed ++ extra).
Proof.
  induction dirs_right as [|d ds IH]; intros l passed.
  - exists []. split; [destruct l; by rewrite app_nil_r|].
    split; [done|]. split; [constructor|]. split; [by intros d ?%elem_of_nil|].
    by intros d ?%elem_of_nil.
  - cbn [add_dirs]. destruct (decide (d ∈ content l passed)) as [Hin|Hnin].
    + rewrite bool_decide_eq_true_2 by done.
      destruct (IH l passed) as (extra & Hrun & Hsub & Hnd & Hnew & Hall).
      exists extra. split; [done|]. split; [by apply sublist_cons|].
      split; [done|]. split; [done|].
      intros d' [->|Hd']%elem_of_cons; [apply elem_of_app; by left | auto].
    + rewrite bool_decide_eq_false_2 by done.
      destruct (extend l d passed) as [l' passed'] eqn:Ext.
      assert (content l' passed' = content l passed ++ [d]) as Hcontent
        by (destruct l; injection Ext as <- <-; done).
      destruct (IH l' passed') as (extra & Hrun & Hsub & Hnd & Hnew & Hall).
      exists (d :: extra). split.
      { rewrite Hrun. destruct l; injection Ext as <- <-;
          by rewrite <- app_assoc. }
      split; [by apply sublist_skip|].
      split.
      { constructor; [|done]. intros Hd. apply (Hnew d Hd).
        rewrite Hcontent. apply elem_of_app. right. by left. }
      split.
      { intros d' [->|Hd']%elem_of_cons; [done|].
        intros Hin. apply (Hnew d' Hd'). rewrite Hcontent.
        apply elem_of_app. by left. }
      intros d' Hd'. rewrite (assoc_L (++) _ [d] extra : _ ++ [d] ++ extra = _).
      rewrite <- Hcontent. apply elem_of_cons in Hd' as [->|Hd']; [|auto].
      rewrite Hcontent. apply elem_of_app. left. apply elem_of_app. right. by left.
Qed.

(** The whole of [add_env_path], once the directories of [env] and of [add]
    are there. *)
Lemma add_env_path_outcome (pathsep : string) (add : add_arg)
    (env : gmap string string) (key : string) (prepend : bool)
    (from_env from_add : list string) :
  env_dirs pathsep env key = Ok from_env ->
  dirs_of pathsep add = Ok from_add ->
  exists extra,
    add_env_path pathsep add env key prepend =
      Ok (<[key := string_join pathsep
                     ((if prepend then from_add else from_env) ++ extra)]> env,
          match add with
          | AddStr _ => None
          | AddList dirs => Some (if prepend then dirs ++ extra else dirs)
          end) /\
    extra `sublist_of` (if prepend then from_env else from_add) /\
    NoDup extra /\
    (forall d, d ∈ extra -> d ∉ (if prepend then from_add else from_env)) /\
    (forall d, d ∈ (if prepend then from_env else from_add) ->
       d ∈ (if prepend then from_add else from_env) ++ extra).
Proof.
  intros Henv Hadd. unfold add_env_path. rewrite Henv.
  destruct add as [s|dirs]; cbn [arg_dirs dirs_of] in *.
  - rewrite Hadd. destruct prepend; cbn [content].
    + destruct (add_dirs_extra from_env (Made from_add) [])
        as (extra & -> & Hrest). by exists extra.
    + destruct (add_dirs_extra from_add (Made from_env) [])
        as (extra & -> & Hrest). by exists extra.
  - injection Hadd as ->. destruct prepend; cbn [content].
    + destruct (add_dirs_extra from_env Passed from_add)
        as (extra & -> & Hrest). by exists extra.
    + destruct (add_dirs_extra from_add (Made from_env) from_add)
        as (extra & -> & Hrest). by exists extra.
Qed.

(** X2. [add_env_path] sets [env[key]] to the directories it starts from
    (those of [env[key]], or with [prepend] those of [add]) followed by the
    directories of the other side that are not among them, each once and in
    their order, joined by the separator; every directory of either side is
    in the new value, and the other keys of [env] are as before. *)
Theorem path_gains_the_missing_directories (pathsep : string) (add : add_arg)
    (env : gmap string string) (key : string) (prepend : bool)
    (from_env from_add : list string) :
  env_dirs pathsep env key = Ok from_env ->
  dirs_of pathsep add = Ok from_add ->
  exists extra env' seen,
    add_env_path pathsep add env key prepend = Ok (env', seen) /\
    env' !! key =
      Some (string_join pathsep
              ((if prepend then from_add else from_env) ++ extra)) /\
    (forall k, k <> key -> env' !! k = env !! k) /\
    extra `sublist_of` (if prepend then from_env else from_add) /\
    NoDup extra /\
    (forall d, d ∈ extra -> d ∉ (if prepend then from_add else from_env)) /\
    (forall d, d ∈ from_env \/ d ∈ from_add ->
       d ∈ (if prepend then from_add else from_env) ++ extra).
Proof.
  intros Henv Hadd.
  destruct (add_env_path_outcome pathsep add env key prepend from_env from_add
              Henv Hadd) as (extra & Hrun & Hsub & Hnd & Hnew & Hall).
  eexists extra, _, _. split; [exact Hrun|].
  split; [by rewrite lookup_insert_eq|].
  split; [by intros k Hk; rewrite lookup_insert_ne|].
  split; [done|]. split; [done|]. split; [done|].
  intros d Hd. destruct prepend, Hd as [Hd|Hd]; auto;
    apply elem_of_app; by left.
Qed.

Lemma path_gains_the_missing_directories_witness :
  exists extra env' seen,
    add_env_path ":" (AddStr "/c:/a") {["PATH" := "/a:/b"]} "PATH" false
      = Ok (env', seen) /\
    env' !! "PATH" = Some (string_join ":" (["/a"; "/b"] ++ extra)) /\
    extra `sublist_of` ["/c"; "/a"] /\ NoDup extra.
Proof.
  destruct (path_gains_the_missing_directories ":" (AddStr "/c:/a")
              {["PATH" := "/a:/b"]} "PATH" false ["/a"; "/b"] ["/c"; "/a"])
    as (extra & env' & seen & Hrun & Hkey & _ & Hsub & Hnd & _).
  - reflexivity.
  - reflexivity.
  - exists extra, env', seen. split; [exact Hrun|]. split; [exact Hkey|].
    split; [exact Hsub | exact Hnd].
Defined.

(** X3. When [add] is a list, [add_env_path] without [prepend] leaves that
    list as it was, but with [prepend] it extends the caller's list in
    place: after the call the list holds the whole new path, its own
    directories followed by the added ones of [env[key]]. *)
Theorem prepend_extends_the_list_passed (pathsep : string) (dirs : list string)
    (env : gmap string string) (key : string) (from_env : list string) :
  env_dirs pathsep env key = Ok from_env ->
  (exists env',
     add_env_path pathsep (AddList dirs) env key false = Ok (env', Some dirs)) /\
  (exists env' extra,
     add_env_path pathsep (AddList dirs) env key true
       = Ok (env', Some (dirs ++ extra)) /\
     env' !! key = Some (string_join pathsep (dirs ++ extra)) /\
     (forall d, d ∈ from_env -> d ∈ dirs ++ extra) /\
     (forall d, d ∈ extra -> d ∈ from_env /\ d ∉ dirs)).
Proof.
  intros Henv. split.
  - destruct (add_env_path_outcome pathsep (AddList dirs) env key false
                from_env dirs Henv eq_refl) as (extra & Hrun & _).
    by eexists.
  - destruct (add_env_path_outcome pathsep (AddList dirs) env key true
                from_env dirs Henv eq_refl)
      as (extra & Hrun & Hsub & _ & Hnew & Hall).
    eexists _, extra. split; [exact Hrun|].
    split; [by rewrite lookup_insert_eq|]. split; [done|].
    intros d Hd. split; [|auto]. by eapply elem_of_sublist.
Qed.

Lemma prepend_extends_the_list_passed_witness :
  exists env' extra,
    add_env_path ":" (AddList ["/c"; "/a"]) {["PATH" := "/a:/b"]} "PATH" true
      = Ok (env', Some (["/c"; "/a"] ++ extra)) /\
    env' !! "PATH" = Some (string_join ":" (["/c"; "/a"] ++ extra)).
Proof.
  destruct (prepend_extends_the_list_passed ":" ["/c"; "/a"]
              {["PATH" := "/a:/b"]} "PATH" ["/a"; "/b"])
    as [_ (env' & extra & Hrun & Hkey & _)].
  - reflexivity.
  - exists env', extra. split; [exact Hrun | exact Hkey].
Defined.

(** ** Splitting what was joined *)

Lemma sapp_prefix_split (a : string) :
  forall b c d : string,
    a +:+ b = c +:+ d -> (String.length a < String.length c)%nat ->
    exists x e, c = a +:+ String x e /\ b = String x e +:+ d.
Proof.
  induction a as [|y a IH]; intros b c d Heq Hlen.
  - destruct c as [|x c]; [simpl in Hlen; lia|]. by exists x, c.
  - destruct c as [|x c]; [simpl in Hlen; lia|].
    rewrite !sapp_cons in Heq. injection Heq as -> Heq.
    destruct (IH b c d Heq) as (x' & e & -> & ->); [simpl in Hlen; lia|].
    by exists x', e.
Qed.

(** With a separator of one character, a segment without it is cut exactly
    at its end. *)
Lemma leftmost_after_segment (ch : ascii) (seg rest : string) :
  ~ occurs (String ch EmptyString) seg ->
  leftmost (String ch EmptyString) (seg +:+ String ch EmptyString +:+ rest)
    seg rest.
Proof.
  intros Hfree. split; [done|]. intros pre' post' Hocc.
  destruct (le_lt_dec (String.length seg) (String.length pre')) as [|Hlt];
    [done|]. exfalso. unfold occurs_at in Hocc. symmetry in Hocc.
  destruct (sapp_prefix_split _ _ _ _ Hocc Hlt) as (x & e & Hseg & Hrest).
  rewrite !sapp_cons, sapp_nil_l in Hrest. injection Hrest as <- _.
  apply Hfree. exists pre', e. by rewrite Hseg.
Qed.

Lemma split_from_string_join (ch : ascii) (segs : list string) :
  segs <> [] ->
  Forall (fun seg => ~ occurs (String ch EmptyString) seg) segs ->
  forall fuel,
    (String.length (string_join (String ch EmptyString) segs) <= fuel)%nat ->
    split_from fuel (string_join (String ch EmptyString) segs)
      (String ch EmptyString) = segs.
Proof.
  induction segs as [|seg [|seg2 segs] IH]; intros Hne Hfree fuel Hfuel;
    [done| |].
  - cbn [string_join]. apply split_from_none. by inversion Hfree.
  - change (string_join (String ch EmptyString) (seg :: seg2 :: segs))
      with (seg +:+ String ch EmptyString
              +:+ string_join (String ch EmptyString) (seg2 :: segs)) in *.
    apply Forall_cons in Hfree as [Hseg Hfree].
    rewrite !slength_app in Hfuel.
    change (String.length (String ch EmptyString)) with 1%nat in Hfuel.
    destruct fuel as [|fuel]; [lia|].
    rewrite (split_from_cut fuel _ _ _ _ (leftmost_after_segment ch seg _ Hseg)).
    f_equal. apply IH; [done | done | lia].
Qed.

Lemma split_string_join (ch : ascii) (segs : list string) :
  segs <> [] ->
  Forall (fun seg => ~ occurs (String ch EmptyString) seg) segs ->
  split (string_join (String ch EmptyString) segs) (String ch EmptyString)
    = Ok segs.
Proof.
  intros Hne Hfree. unfold split. rewrite decide_False by done.
  f_equal. by apply split_from_string_join.
Qed.

Lemma split_segments_free (s sep : string) (segs : list string) :
  split s sep = Ok segs ->
  segs <> [] /\ Forall (fun seg => ~ occurs sep seg) segs.
Proof.
  unfold split. destruct (decide (sep = EmptyString)) as [|Hne]; [done|].
  intros [= <-]. split; [apply split_from_not_nil|].
  by apply split_from_segments.
Qed.

(** ** Adding what is there already *)

Lemma add_dirs_present (dirs_right acc passed : list string) :
  (forall d, d ∈ dirs_right -> d ∈ acc) ->
  add_dirs dirs_right (Made acc) passed = (Made acc, passed).
Proof.
  induction dirs_right as [|d ds IH]; intros Hall; [done|].
  cbn [add_dirs content]. rewrite bool_decide_eq_true_2 by (apply Hall; by left).
  apply IH. intros d' Hd'. apply Hall. by right.
Qed.

Lemma add_dirs_fresh (extra : list string) :
  forall acc passed : list string,
    NoDup extra -> (forall d, d ∈ extra -> d ∉ acc) ->
    add_dirs extra (Made acc) passed = (Made (acc ++ extra), passed).
Proof.
  induction extra as [|d extra IH]; intros acc passed Hnd Hnew.
  - by rewrite app_nil_r.
  - apply NoDup_cons in Hnd as [Hd Hnd]. cbn [add_dirs content extend].
    rewrite bool_decide_eq_false_2 by (apply Hnew; by left).
    rewrite IH; [by rewrite <- app_assoc | done |].
    intros d' Hd' [Hin|Hin]%elem_of_app.
    + apply (Hnew d'); [by right | done].
    + apply elem_of_cons in Hin as [->|Hin]; [done|].
      by apply elem_of_nil in Hin.
Qed.

Lemma add_dirs_app (ds1 ds2 : list string) :
  forall (l : dir_list) (passed : list string),
    add_dirs (ds1 ++ ds2) l passed =
    add_dirs ds2 (add_dirs ds1 l passed).1 (add_dirs ds1 l passed).2.
Proof.
  induction ds1 as [|d ds1 IH]; intros l passed; [done|].
  cbn [app add_dirs]. destruct (bool_decide _); [apply IH|].
  destruct (extend l d passed). apply IH.
Qed.

Lemma env_dirs_free (ch : ascii) (env : gmap string string) (key : string)
    (from_env : list string) :
  env_dirs (String ch EmptyString) env key = Ok from_env ->
  Forall (fun seg => ~ occurs (String ch EmptyString) seg) from_env.
Proof.
  unfold env_dirs. destruct (env !! key) as [value|].
  - by intros [_ H]%split_segments_free.
  - intros [= <-]. constructor.
Qed.

(** X4. With a separator of one character, as [os.pathsep] is, adding a
    path given as a string a second time changes nothing: the second call
    with the same [add], [key] and [prepend] leaves [env] as the first call
    left it. *)
Theorem adding_a_path_twice_is_adding_it_once (ch : ascii) (s key : string)
    (env env1 : gmap string string) (prepend : bool)
    (seen : option (list string)) :
  add_env_path (String ch EmptyString) (AddStr s) env key prepend
    = Ok (env1, seen) ->
  add_env_path (String ch EmptyString) (AddStr s) env1 key prepend
    = Ok (env1, seen).
Proof.
  set (sep := String ch EmptyString). intros Hfirst.
  destruct (env_dirs sep env key) as [from_env|e] eqn:Henv;
    [|by unfold add_env_path in Hfirst; rewrite Henv in Hfirst].
  assert (exists from_add, split s sep = Ok from_add) as [from_add Hadd].
  { unfold split. rewrite decide_False by done. by eexists. }
  destruct (add_env_path_outcome sep (AddStr s) env key prepend from_env
              from_add Henv Hadd) as (extra & Hrun & Hsub & Hnd & Hnew & Hall).
  rewrite Hrun in Hfirst. injection Hfirst as <- <-.
  destruct (split_segments_free _ _ _ Hadd) as [Hne_add Hfree_add].
  pose proof (env_dirs_free ch env key from_env Henv) as Hfree_env.
  set (dirs := (if prepend then from_add else from_env) ++ extra) in *.
  assert (dirs <> []) as Hne.
  { unfold dirs. destruct prepend.
    - by destruct from_add.
    - destruct from_add as [|d ?]; [done|]. intros Hnil.
      assert (d ∈ dirs) as Hin by (apply Hall; by left).
      unfold dirs in Hin. rewrite Hnil in Hin. by apply elem_of_nil in Hin. }
  assert (Forall (fun seg => ~ occurs sep seg) dirs) as Hfree.
  { unfold dirs. apply Forall_app. split; [by destruct prepend|].
    apply Forall_forall. intros d Hd.
    pose proof (elem_of_sublist _ _ _ Hd Hsub) as Hin.
    destruct prepend.
    - exact (proj1 (Forall_forall _ _) Hfree_env d Hin).
    - exact (proj1 (Forall_forall _ _) Hfree_add d Hin). }
  unfold add_env_path at 1.
  assert (env_dirs sep (<[key := string_join sep dirs]> env) key = Ok dirs)
    as -> by (unfold env_dirs; rewrite lookup_insert_eq;
              by apply split_string_join).
  cbn [arg_dirs]. rewrite Hadd.
  assert (add_dirs (content (if prepend then Made dirs else Made from_add) [])
            (if prepend then Made from_add else Made dirs) []
          = (Made dirs, [])) as Hsame.
  { destruct prepend; cbn [content].
    - unfold dirs. rewrite add_dirs_app, add_dirs_present by done.
      cbn [fst snd]. by apply add_dirs_fresh.
    - apply add_dirs_present. exact Hall. }
  destruct prepend; rewrite Hsame; cbn [content];
    by rewrite insert_insert_eq.
Qed.

Lemma adding_a_path_twice_is_adding_it_once_witness :
  add_env_path ":" (AddStr "/c:/a")
    (<["PATH" := "/a:/b:/c"]> {["PATH" := "/a:/b"]}) "PATH" false
  = Ok (<["PATH" := "/a:/b:/c"]> {["PATH" := "/a:/b"]}, None).
Proof.
  apply (adding_a_path_twice_is_adding_it_once ":"%char "/c:/a" "PATH"
           {["PATH" := "/a:/b"]}).
  reflexivity.
Defined.

End EnvironFacts.

(** * Facts about [parse_exit_code] *)

Module ExitCodeFacts.
Import PatternMatch ExitCode PatternMatchFacts EnvironFacts.

(** ** Runs of digits *)

Lemma leading_digits_app (d r : string) :
  all_digits d = true -> no_digit_first r = true ->
  leading_digits (d +:+ r) = d.
Proof.
  intros Hd Hr. induction d as [|c d IH].
  - rewrite sapp_nil_l. destruct r as [|c r]; [done|]. simpl in *.
    by destruct (is_digit c).
  - rewrite sapp_cons. simpl in *. apply andb_prop in Hd as [-> Hd].
    by rewrite IH.
Qed.

Lemma leading_digits_split (s : string) :
  exists r, s = leading_digits s +:+ r /\
            all_digits (leading_digits s) = true.
Proof.
  induction s as [|c s (r & Hr & Hd)]; [by exists EmptyString|].
  simpl. destruct (is_digit c) eqn:Hc.
  - exists r. rewrite sapp_cons. simpl. rewrite Hc, Hd. by rewrite <- Hr.
  - by exists (String c s).
Qed.

(** No digit is the first letter of [error]. *)
Lemma all_digits_no_e (d pre post : string) :
  all_digits d = true -> d <> pre +:+ String "e" post.
Proof.
  revert d. induction pre as [|c pre IH]; intros [|x d] Hd Heq; try done.
  - rewrite sapp_nil_l in Heq. injection Heq as -> _. done.
  - rewrite sapp_cons in Heq. injection Heq as -> Heq. simpl in Hd.
    apply andb_prop in Hd as [_ Hd]. by apply (IH d).
Qed.

Lemma sapp_prefix_le (a : string) :
  forall b c d : string,
    a +:+ b = c +:+ d -> (String.length a <= String.length c)%nat ->
    exists e, c = a +:+ e /\ b = e +:+ d.
Proof.
  induction a as [|y a IH]; intros b c d Heq Hlen.
  - by exists c.
  - destruct c as [|x c]; [simpl in Hlen; lia|].
    rewrite !sapp_cons in Heq. injection Heq as -> Heq.
    destruct (IH b c d Heq) as (e & -> & ->); [simpl in Hlen; lia|].
    by exists e.
Qed.

(** An occurrence of [error] in a string that starts with digits lies after
    the digits. *)
Lemma occurs_after_digits (d r : string) :
  all_digits d = true -> occurs "error" (d +:+ r) -> occurs "error" r.
Proof.
  intros Hd (p1 & p2 & Hocc). unfold occurs_at in Hocc.
  destruct (le_lt_dec (String.length d) (String.length p1)) as [Hle|Hlt].
  - destruct (sapp_prefix_le _ _ _ _ Hocc Hle) as (e & -> & ->).
    by exists e, p2.
  - symmetry in Hocc.
    destruct (sapp_prefix_split _ _ _ _ Hocc Hlt) as (x & e & Hdeq & Hrest).
    change ("error" +:+ p2) with (String "e" ("rror" +:+ p2)) in Hrest.
    rewrite sapp_cons in Hrest. injection Hrest as <- _.
    by destruct (all_digits_no_e d p1 e Hd).
Qed.

(** ** The matches of the pattern *)

Lemma findall_error_none (fuel : nat) (s : string) :
  ~ occurs "error" s -> findall_error fuel s = [].
Proof.
  intros Hno.
  destruct (find_step s "error") as [[Hneg _]|(pre & post & [Ho _] & _)].
  - destruct fuel; simpl; by rewrite (proj2 (Z.ltb_lt _ _) Hneg).
  - destruct Hno. by exists pre, post.
Qed.

Lemma findall_error_cut (fuel : nat) (s pre post : string) :
  leftmost "error" s pre post ->
  findall_error (S fuel) s =
    leading_digits post ::
    findall_error fuel (slice_from post (len (leading_digits post))).
Proof.
  intros Hl. cbn [findall_error].
  rewrite (find_leftmost _ _ _ _ Hl).
  assert (0 <= len pre) as Hpos by (unfold len; lia).
  rewrite (proj2 (Z.ltb_ge _ _) Hpos).
  destruct Hl as [-> _]. by rewrite slice_after.
Qed.

(** ** The properties *)

Lemma length_error_le (s pre post : string) :
  s = pre +:+ "error" +:+ post ->
  String.length s = (String.length pre + 5 + String.length post)%nat.
Proof. intros ->. rewrite !slength_app. simpl. lia. Qed.

(** X5. An output in which [error] does not occur has exit code 0. *)
Theorem no_error_is_exit_code_0 (s : string) :
  ~ occurs "error" s -> parse_exit_code s = Some 0.
Proof.
  intros Hno. unfold parse_exit_code. by rewrite findall_error_none.
Qed.

Lemma no_error_is_exit_code_0_witness :
  ~ occurs "error" "all is well" /\ parse_exit_code "all is well" = Some 0.
Proof.
  assert (~ occurs "error" "all is well") as Hno
    by (apply find_neg; vm_compute; reflexivity).
  split; [exact Hno | apply (no_error_is_exit_code_0 "all is well" Hno)].
Defined.

(** X6. An output whose only occurrence of [error] is followed by the
    digits [d], and then by something that is not a digit, has the number
    written by [d] as exit code, and 1 when there is no digit at all. *)
Theorem single_error_gives_its_code (s pre d r : string) :
  leftmost "error" s pre (d +:+ r) ->
  all_digits d = true -> no_digit_first r = true ->
  ~ occurs "error" r ->
  parse_exit_code s =
    Some (if decide (d = EmptyString) then 1 else int_digits 0 d).
Proof.
  intros Hl Hd Hr Hno. unfold parse_exit_code.
  pose proof (length_error_le _ _ _ (proj1 Hl)) as Hlen.
  destruct (String.length s) as [|fuel]; [lia|].
  rewrite (findall_error_cut fuel s pre (d +:+ r) Hl).
  rewrite (leading_digits_app d r Hd Hr), slice_after_prefix.
  by rewrite findall_error_none.
Qed.

Lemma single_error_gives_its_code_witness :
  parse_exit_code "test failed: error042 (see log)" = Some 42.
Proof.
  apply (single_error_gives_its_code "test failed: error042 (see log)"
           "test failed: " "042" " (see log)").
  - split; [reflexivity|]. intros pre' post' Hocc.
    assert (find "test failed: error042 (see log)" "error" =
            len "test failed: ") as Hfind by (vm_compute; reflexivity).
    destruct (find_nonneg "test failed: error042 (see log)" "error")
      as (p & q & [_ Hmin] & Hp); [by rewrite Hfind|].
    rewrite Hfind in Hp. specialize (Hmin pre' post' Hocc).
    unfold len in Hp. lia.
  - reflexivity.
  - reflexivity.
  - apply find_neg. vm_compute. reflexivity.
Defined.

(** X7. An output with two occurrences of [error] fails the assertion of
    [parse_exit_code], whatever stands around them. *)
Theorem two_errors_fail_the_assertion (a b c : string) :
  parse_exit_code (a +:+ "error" +:+ b +:+ "error" +:+ c) = None.
Proof.
  set (s := a +:+ "error" +:+ b +:+ "error" +:+ c).
  destruct (find_step s "error") as [[_ Hno]|(pre & post & Hl & _)].
  { destruct Hno. by exists a, (b +:+ "error" +:+ c). }
  pose proof Hl as [Hocc Hmin].
  specialize (Hmin a (b +:+ "error" +:+ c) eq_refl).
  assert (occurs "error" post) as Hpost.
  { unfold occurs_at in Hocc.
    assert ((pre +:+ "error") +:+ post = (a +:+ "error" +:+ b) +:+ "error" +:+ c)
      as Heq by (rewrite !sapp_assoc; by rewrite <- Hocc).
    destruct (sapp_prefix_le _ _ _ _ Heq) as (e & _ & ->).
    - rewrite !slength_app. simpl. lia.
    - by exists e, c. }
  destruct (leading_digits_split post) as (r & Hsplit & Hd).
  assert (occurs "error" r) as Hr
    by (apply (occurs_after_digits (leading_digits post)); [done|];
        by rewrite <- Hsplit).
  assert (slice_from post (len (leading_digits post)) = r) as Hslice
    by (rewrite Hsplit at 1; apply slice_after_prefix).
  destruct (find_step r "error") as [[_ Hno]|(pre2 & post2 & Hl2 & _)]; [done|].
  unfold parse_exit_code.
  pose proof (length_error_le _ _ _ Hocc) as Hlen.
  destruct Hpost as (p1 & p2 & Hp).
  pose proof (length_error_le _ _ _ Hp) as Hlen2.
  destruct (String.length s) as [|[|fuel]]; [lia | lia |].
  rewrite (findall_error_cut _ s pre post Hl), Hslice.
  by rewrite (findall_error_cut _ r pre2 post2 Hl2).
Qed.

End ExitCodeFacts.

(** * Facts about [find_exts] *)

Module FindExtsFacts.
Import PatternMatch FindExts PatternMatchFacts.

(** Induction on a directory tree, with the property at hand for every
    sub-directory that has a tree. *)
Lemma tree_induction (P : tree -> Prop) :
  (forall dirs files,
     Forall (fun entry => forall sub, entry.2 = Some sub -> P sub) dirs ->
     P (Dir dirs files)) ->
  forall t, P t.
Proof.
  intros step. fix IH 1. intros [dirs files]. apply step.
  induction dirs as [|[name [sub|]] dirs IHdirs].
  - constructor.
  - constructor; [|exact IHdirs]. intros sub' [= <-]. apply IH.
  - constructor; [|exact IHdirs]. intros sub' [=].
Qed.

(** ** Loops that only add to what they are given *)

Lemma elem_of_foldl_acc {A : Type} (f : list string -> A -> list string)
    (Q : A -> string -> Prop) (l : list A) :
  (forall a, a ∈ l -> forall acc m, m ∈ f acc a <-> m ∈ acc \/ Q a m) ->
  forall acc m,
    m ∈ foldl f acc l <-> m ∈ acc \/ exists a, a ∈ l /\ Q a m.
Proof.
  induction l as [|a l IH]; intros Hf acc m.
  - simpl. split; [by left|]. intros [?|(a & Ha & _)]; [done|].
    by apply elem_of_nil in Ha.
  - cbn [foldl]. rewrite IH by (intros a' Ha'; apply Hf; by right).
    rewrite (Hf a) by (by left). split.
    + intros [[?|?]|(a' & Ha' & HQ)]; [by left | right | right].
      * exists a. split; [by left | done].
      * exists a'. split; [by right | done].
    + intros [?|(a' & [->|Ha']%elem_of_cons & HQ)].
      * left. by left.
      * left. by right.
      * right. by exists a'.
Qed.

Lemma foldl_ext_in {A B : Type} (f g : B -> A -> B) (l : list A) :
  (forall a, a ∈ l -> forall acc, f acc a = g acc a) ->
  forall acc, foldl f acc l = foldl g acc l.
Proof.
  induction l as [|a l IH]; intros Hfg acc; [done|].
  cbn [foldl]. rewrite (Hfg a) by (by left).
  apply IH. intros a' Ha'. apply Hfg. by right.
Qed.

Lemma foldl_sublist {A : Type} (f g : list string -> A -> list string)
    (l : list A) :
  (forall a, a ∈ l -> forall acc acc',
     acc `sublist_of` acc' -> f acc a `sublist_of` g acc' a) ->
  forall acc acc',
    acc `sublist_of` acc' -> foldl f acc l `sublist_of` foldl g acc' l.
Proof.
  induction l as [|a l IH]; intros Hfg acc acc' Hsub; [done|].
  cbn [foldl]. apply IH.
  - intros a' Ha'. apply Hfg. by right.
  - apply Hfg; [by left | done].
Qed.

Section Walk.

Variable path_join : string -> string -> string.
Variable normpath : string -> string.

(** ** One file against the extensions *)

Lemma match_exts_once (extensions : list string) (root filename : string)
    (matches : list string) :
  match_exts path_join extensions root filename matches =
  matches ++ (if existsb (endswith filename) extensions
              then [path_join root filename] else []).
Proof.
  induction extensions as [|ext extensions IH]; cbn [match_exts existsb].
  - by rewrite app_nil_r.
  - by destruct (endswith filename ext).
Qed.

Lemma existsb_endswith (filename : string) (extensions : list string) :
  existsb (endswith filename) extensions = true <->
  exists ext, ext ∈ extensions /\ endswith filename ext = true.
Proof.
  rewrite existsb_exists. split; intros (ext & Hin & He); exists ext;
    (split; [by apply list_elem_of_In | done]).
Qed.

Lemma endswith_spec (s suffix : string) :
  endswith s suffix = true <-> exists stem, s = stem +:+ suffix.
Proof.
  unfold endswith. rewrite andb_true_iff, Nat.leb_le, bool_decide_eq_true.
  split.
  - intros [Hlen Hdrop].
    exists (take_chars (String.length s - String.length suffix) s).
    rewrite <- (take_drop_chars (String.length s - String.length suffix) s)
      at 1. by rewrite Hdrop.
  - intros [stem ->]. rewrite slength_app. split; [lia|].
    replace (String.length stem + String.length suffix - String.length suffix)%nat
      with (String.length stem) by lia.
    apply drop_chars_app.
Qed.

Lemma elem_of_match_files (extensions : list string) (root : string)
    (files matches : list string) (m : string) :
  m ∈ match_files path_join extensions root files matches <->
  m ∈ matches \/
  exists f, f ∈ files /\ existsb (endswith f) extensions = true /\
            m = path_join root f.
Proof.
  unfold match_files.
  apply (elem_of_foldl_acc _
           (fun f m => existsb (endswith f) extensions = true /\
                       m = path_join root f)).
  intros f _ acc m'. rewrite match_exts_once, elem_of_app.
  destruct (existsb (endswith f) extensions).
  - rewrite elem_of_cons, elem_of_nil. naive_solver.
  - rewrite elem_of_nil. naive_solver.
Qed.

(** ** What the walk finds *)

Lemma elem_of_walk (skip extensions : list string) (t : tree) :
  forall (root : string) (matches : list string) (m : string),
    m ∈ walk path_join skip extensions root t matches <->
    m ∈ matches \/
    exists at_root files f,
      visits path_join skip root t at_root files /\ f ∈ files /\
      existsb (endswith f) extensions = true /\ m = path_join at_root f.
Proof.
  induction t as [dirs files IH] using tree_induction.
  intros root matches m. cbn [walk].
  destruct (decide (root ∈ skip)) as [Hskip|Hskip].
  { rewrite bool_decide_eq_true_2 by done. split; [by left|].
    intros [?|(at_root & fs & f & Hv & _)]; [done|].
    inversion Hv; subst; contradiction. }
  rewrite bool_decide_eq_false_2 by done.
  rewrite (elem_of_foldl_acc _
    (fun entry m =>
       exists name sub at_root fs f,
         entry = (name, Some sub) /\
         visits path_join skip (path_join root name) sub at_root fs /\
         f ∈ fs /\ existsb (endswith f) extensions = true /\
         m = path_join at_root f)).
  - rewrite elem_of_match_files. split.
    + intros [[?|(f & Hf & He & ->)]|(e & He & name & sub & at_root & fs & f
                                       & -> & Hv & Hf & Hext & ->)].
      * by left.
      * right. exists root, files, f. split; [by constructor | done].
      * right. exists at_root, fs, f. split; [|done].
        by eapply visits_below.
    + intros [?|(at_root & fs & f & Hv & Hf & Hext & ->)]; [left; by left|].
      inversion Hv as [|? ? ? name sub ? ? _ Hin Hv']; subst.
      * left. right. by exists f.
      * right. exists (name, Some sub). split; [done|].
        by exists name, sub, at_root, fs, f.
  - intros [name [sub|]] Hin acc m'.
    + rewrite Forall_forall in IH. rewrite (IH _ Hin sub eq_refl). split.
      * intros [?|(at_root & fs & f & Hrest)]; [by left|].
        right. by exists name, sub, at_root, fs, f.
      * intros [?|(name' & sub' & at_root & fs & f & [= <- <-] & Hrest)];
          [by left|]. right. by exists at_root, fs, f.
    + split; [by left|]. by intros [?|(? & ? & ? & ? & ? & [=] & _)].
Qed.

(** X8. A path is in the result of [find_exts] exactly when it is the join
    of a visited directory and of one of its files whose name ends with one
    of the extensions; the visited directories are those reached from one of
    [directories] without going through, or being, a directory of the
    normalised [skip]. *)
Theorem find_exts_finds_the_files_not_skipped (fs : string -> option tree)
    (directories extensions : list string) (skip : option (list string))
    (m : string) :
  m ∈ find_exts path_join normpath fs directories extensions skip <->
  exists directory t at_root files f ext stem,
    directory ∈ directories /\ fs directory = Some t /\
    visits path_join (normpath <$> default [] skip) directory t at_root files /\
    f ∈ files /\ ext ∈ extensions /\ f = stem +:+ ext /\
    m = path_join at_root f.
Proof.
  unfold find_exts.
  rewrite (elem_of_foldl_acc _
    (fun directory m =>
       exists t at_root files f,
         fs directory = Some t /\
         visits path_join (normpath <$> default [] skip) directory t
           at_root files /\
         f ∈ files /\ existsb (endswith f) extensions = true /\
         m = path_join at_root f)).
  - rewrite elem_of_nil. split.
    + intros [[]|(directory & Hd & t & at_root & files & f & Hfs & Hv & Hf
                  & (ext & Hext & [stem Hs]%endswith_spec)%existsb_endswith
                  & ->)].
      by exists directory, t, at_root, files, f, ext, stem.
    + intros (directory & t & at_root & files & f & ext & stem & Hd & Hfs & Hv
              & Hf & Hext & Hs & ->).
      right. exists directory. split; [done|].
      exists t, at_root, files, f. repeat (split; [done|]). split; [|done].
      apply existsb_endswith. exists ext. split; [done|].
      apply endswith_spec. by exists stem.
  - intros directory _ acc m'. destruct (fs directory) as [t|].
    + rewrite elem_of_walk. split.
      * intros [?|(at_root & files & f & Hrest)]; [by left|].
        right. by exists t, at_root, files, f.
      * intros [?|(t' & at_root & files & f & [= <-] & Hrest)]; [by left|].
        right. by exists at_root, files, f.
    + split; [by left|]. by intros [?|(? & ? & ? & ? & [=] & _)].
Qed.

(** ** The walk only adds to the matches *)

Lemma foldl_acc_app {A : Type} (f : list string -> A -> list string)
    (l : list A) :
  (forall a, a ∈ l -> forall acc, f acc a = acc ++ f [] a) ->
  forall acc, foldl f acc l = acc ++ foldl f [] l.
Proof.
  induction l as [|a l IH]; intros Hf acc.
  - by rewrite app_nil_r.
  - assert (forall a', a' ∈ l -> forall acc, f acc a' = acc ++ f [] a') as Hl
      by (intros a' Ha'; apply Hf; by right).
    cbn [foldl]. rewrite (IH Hl (f acc a)), (IH Hl (f [] a)).
    rewrite (Hf a) by (by left). by rewrite <- app_assoc.
Qed.

Lemma match_files_app (extensions : list string) (root : string)
    (files matches : list string) :
  match_files path_join extensions root files matches =
  matches ++ match_files path_join extensions root files [].
Proof.
  unfold match_files. apply foldl_acc_app.
  intros f _ acc. by rewrite !match_exts_once.
Qed.

Lemma walk_app (skip extensions : list string) (t : tree) :
  forall (root : string) (matches : list string),
    walk path_join skip extensions root t matches =
    matches ++ walk path_join skip extensions root t [].
Proof.
  induction t as [dirs files IH] using tree_induction.
  intros root matches. cbn [walk].
  destruct (bool_decide (root ∈ skip)); [by rewrite app_nil_r|].
  set (F := fun (matches : list string) (entry : string * option tree) =>
              match entry with
              | (name, Some sub) =>
                  walk path_join skip extensions (path_join root name) sub
                    matches
              | (_, None) => matches
              end).
  assert (forall e, e ∈ dirs -> forall acc, F acc e = acc ++ F [] e) as Hstep.
  { intros [name [sub|]] Hin acc; unfold F.
    - rewrite Forall_forall in IH. apply (IH _ Hin sub eq_refl).
    - by rewrite app_nil_r. }
  rewrite (foldl_acc_app F dirs Hstep (match_files _ _ _ _ matches)).
  rewrite (foldl_acc_app F dirs Hstep (match_files _ _ _ _ [])).
  rewrite match_files_app. by rewrite <- app_assoc.
Qed.

(** X9. The directories are searched one after the other: the result for
    two lists of directories put end to end is the result for the first list
    followed by the result for the second. *)
Theorem find_exts_searches_the_directories_in_order
    (fs : string -> option tree) (directories1 directories2 : list string)
    (extensions : list string) (skip : option (list string)) :
  find_exts path_join normpath fs (directories1 ++ directories2) extensions
    skip =
  find_exts path_join normpath fs directories1 extensions skip ++
  find_exts path_join normpath fs directories2 extensions skip.
Proof.
  unfold find_exts. rewrite foldl_app. apply foldl_acc_app.
  intros directory _ acc. destruct (fs directory) as [t|].
  - apply walk_app.
  - by rewrite app_nil_r.
Qed.

(** ** The extensions as a set *)

Lemma existsb_endswith_equiv (extensions1 extensions2 : list string) :
  (forall ext, ext ∈ extensions1 <-> ext ∈ extensions2) ->
  forall f, existsb (endswith f) extensions1 =
            existsb (endswith f) extensions2.
Proof.
  intros Hsame f. apply eq_true_iff_eq. rewrite !existsb_endswith.
  split; intros (ext & Hin & He); exists ext; (split; [by apply Hsame | done]).
Qed.

Lemma walk_ext (skip extensions1 extensions2 : list string) (t : tree) :
  (forall f, existsb (endswith f) extensions1 =
             existsb (endswith f) extensions2) ->
  forall (root : string) (matches : list string),
    walk path_join skip extensions1 root t matches =
    walk path_join skip extensions2 root t matches.
Proof.
  intros Hsame. induction t as [dirs files IH] using tree_induction.
  intros root matches. cbn [walk].
  destruct (bool_decide (root ∈ skip)); [done|].
  assert (match_files path_join extensions1 root files matches =
          match_files path_join extensions2 root files matches) as ->.
  { unfold match_files. apply foldl_ext_in.
    intros f _ acc. by rewrite !match_exts_once, Hsame. }
  apply foldl_ext_in. intros [name [sub|]] Hin acc; [|done].
  rewrite Forall_forall in IH. apply (IH _ Hin sub eq_refl).
Qed.

(** X10. Each file is listed once, whatever number of the extensions its
    name ends with: two lists with the same extensions, in any order and
    with any repetitions, give the same result. *)
Theorem find_exts_takes_the_extensions_as_a_set
    (fs : string -> option tree) (directories : list string)
    (extensions1 extensions2 : list string) (skip : option (list string)) :
  (forall ext, ext ∈ extensions1 <-> ext ∈ extensions2) ->
  find_exts path_join normpath fs directories extensions1 skip =
  find_exts path_join normpath fs directories extensions2 skip.
Proof.
  intros Hsame. unfold find_exts. apply foldl_ext_in.
  intros directory _ acc. destruct (fs directory) as [t|]; [|done].
  apply walk_ext. by apply existsb_endswith_equiv.
Qed.

(** ** Skipping more *)

Lemma walk_skip_sublist (skip skip' extensions : list string) (t : tree) :
  skip ⊆ skip' ->
  forall (root : string) (matches matches' : list string),
    matches `sublist_of` matches' ->
    walk path_join skip' extensions root t matches `sublist_of`
    walk path_join skip extensions root t matches'.
Proof.
  intros Hskip. induction t as [dirs files IH] using tree_induction.
  intros root matches matches' Hsub.
  destruct (decide (root ∈ skip')) as [Hin|Hout].
  - replace (walk path_join skip' extensions root (Dir dirs files) matches)
      with matches by (cbn [walk]; by rewrite bool_decide_eq_true_2).
    rewrite (walk_app skip). by apply sublist_inserts_r.
  - assert (root ∉ skip) as Hout' by (intros Hin; by apply Hout, Hskip).
    cbn [walk]. rewrite !bool_decide_eq_false_2 by done.
    apply foldl_sublist.
    + intros [name [sub|]] Hin acc acc' Hacc; [|done].
      rewrite Forall_forall in IH. by apply (IH _ Hin sub eq_refl).
    + unfold match_files. apply foldl_sublist; [|done].
      intros f _ acc acc' Hacc. rewrite !match_exts_once.
      by apply sublist_app.
Qed.

(** X11. Skipping more directories only takes paths out of the result: the
    result for the larger skip list is the result for the smaller one with
    some of its paths left out, the others in the same order. *)
Theorem find_exts_skipping_more_finds_less
    (fs : string -> option tree) (directories extensions : list string)
    (skip skip' : option (list string)) :
  default [] skip ⊆ default [] skip' ->
  find_exts path_join normpath fs directories extensions skip'
    `sublist_of`
  find_exts path_join normpath fs directories extensions skip.
Proof.
  intros Hskip. unfold find_exts. apply foldl_sublist; [|done].
  intros directory _ acc acc' Hacc. destruct (fs directory) as [t|]; [|done].
  apply walk_skip_sublist; [|done].
  intros x (y & -> & Hy)%list_elem_of_fmap.
  apply list_elem_of_fmap. exists y. split; [done | by apply Hskip].
Qed.

End Walk.

(** ** The properties on a small source tree *)

Lemma find_exts_takes_the_extensions_as_a_set_witness :
  let join := fun a b : string => a +:+ "/" +:+ b in
  let fs := fun directory : string =>
    if decide (directory = "src")
    then Some (Dir [("js", Some (Dir [] ["a.js"; "a.d.ts"]))]
                   ["main.ts"; "README"])
    else None in
  find_exts join id fs ["src"] [".ts"; ".d.ts"; ".js"] None =
  find_exts join id fs ["src"] [".js"; ".d.ts"; ".ts"; ".js"] None.
Proof.
  intros join fs.
  apply (find_exts_takes_the_extensions_as_a_set join id fs ["src"]
           [".ts"; ".d.ts"; ".js"] [".js"; ".d.ts"; ".ts"; ".js"] None).
  intros ext. rewrite !elem_of_cons, !elem_of_nil. tauto.
Defined.

Lemma find_exts_skipping_more_finds_less_witness :
  let join := fun a b : string => a +:+ "/" +:+ b in
  let fs := fun directory : string =>
    if decide (directory = "src")
    then Some (Dir [("js", Some (Dir [] ["a.js"; "a.d.ts"]));
                    ("tests", Some (Dir [] ["t.ts"]))]
                   ["main.ts"; "README"])
    else None in
  find_exts join id fs ["src"] [".ts"] (Some ["src/js"; "src/tests"])
    `sublist_of`
  find_exts join id fs ["src"] [".ts"] (Some ["src/tests"]).
Proof.
  intros join fs.
  apply (find_exts_skipping_more_finds_less join id fs ["src"] [".ts"]
           (Some ["src/tests"]) (Some ["src/js"; "src/tests"])).
  intros x. simpl. rewrite !elem_of_cons, !elem_of_nil. tauto.
Defined.

End FindExtsFacts.

(** * Facts about [shell_quote_win] *)

Module ShellQuoteFacts.
Import PatternMatch ShellQuote PatternMatchFacts.

(** ** Runs of backslashes *)

Lemma backslashes_length (n : nat) : String.length (backslashes n) = n.
Proof. induction n as [|n IH]; simpl; congruence. Qed.

Lemma backslashes_S_app (n : nat) (s : string) :
  backslashes (S n) +:+ s = backslashes n +:+ String backslash s.
Proof.
  induction n as [|n IH]; [done|].
  change (backslashes (S (S n))) with (String backslash (backslashes (S n))).
  rewrite sapp_cons, IH. by rewrite <- sapp_cons.
Qed.

Lemma sub_backslashes_length (s : string) :
  forall run, (run + String.length s <= String.length (sub_backslashes run s))%nat.
Proof.
  induction s as [|c s IH]; intros run; cbn [sub_backslashes].
  - rewrite backslashes_length. simpl. lia.
  - destruct (Ascii.eqb c backslash).
    + specialize (IH (S run)). simpl. lia.
    + specialize (IH 0%nat).
      destruct (Ascii.eqb c dquote);
        rewrite slength_app, backslashes_length; simpl; lia.
Qed.

Lemma double_quotes_length (s : string) :
  (String.length s <= String.length (double_quotes s))%nat.
Proof.
  induction s as [|c s IH]; [done|]. cbn [double_quotes].
  destruct (Ascii.eqb c dquote); simpl; lia.
Qed.

(** ** The way back *)

Lemma halve_backslashes_run (n : nat) (s : string) :
  forall run,
    halve_backslashes run (backslashes n +:+ s) =
    halve_backslashes (run + n) s.
Proof.
  induction n as [|n IH]; intros run.
  - rewrite sapp_nil_l. by rewrite Nat.add_0_r.
  - cbn [backslashes]. rewrite sapp_cons. cbn [halve_backslashes].
    change (Ascii.eqb backslash backslash) with true. cbn iota.
    rewrite IH. f_equal. lia.
Qed.

Lemma div2_double (n : nat) : Nat.div2 (n + n) = n.
Proof.
  induction n as [|n IH]; [done|].
  replace (S n + S n)%nat with (S (S (n + n))) by lia. simpl. by rewrite IH.
Qed.

Lemma halve_sub_backslashes (s : string) :
  forall run,
    halve_backslashes 0 (sub_backslashes run s) = backslashes run +:+ s.
Proof.
  induction s as [|c s IH]; intros run; cbn [sub_backslashes].
  - rewrite <- (sapp_empty_r (backslashes run)) at 1.
    rewrite halve_backslashes_run. simpl. by rewrite sapp_empty_r.
  - destruct (Ascii.eqb c backslash) eqn:Hb.
    + apply Ascii.eqb_eq in Hb as ->. rewrite IH. apply backslashes_S_app.
    + destruct (Ascii.eqb c dquote) eqn:Hq;
        rewrite halve_backslashes_run; cbn [halve_backslashes];
        rewrite Hb, Hq, IH; simpl; rewrite sapp_nil_l.
      * by rewrite div2_double.
      * done.
Qed.

Lemma single_double_quotes (s : string) : single_quotes (double_quotes s) = s.
Proof.
  induction s as [|c s IH]; [done|]. cbn [double_quotes].
  destruct (Ascii.eqb c dquote) eqn:Hq.
  - apply Ascii.eqb_eq in Hq as ->. cbn [single_quotes].
    change (Ascii.eqb dquote dquote) with true. cbn iota. by rewrite IH.
  - cbn [single_quotes]. by rewrite Hq, IH.
Qed.

(** ** Arguments that need no quotes *)

Lemma search_special_cons (c : ascii) (s : string) :
  search_special (String c s) = false ->
  special c = false /\ search_special s = false.
Proof. cbn [search_special]. by intros [? ?]%orb_false_elim. Qed.

Lemma not_special_not_dquote (c : ascii) :
  special c = false -> Ascii.eqb c dquote = false.
Proof.
  unfold special. intros [[_ ?]%orb_false_elim _]%orb_false_elim. done.
Qed.

Lemma quotes_unescaped_no_quote (s : string) :
  search_special s = false -> forall run, quotes_unescaped run s = true.
Proof.
  induction s as [|c s IH]; [done|].
  intros [Hc Hs]%search_special_cons run. cbn [quotes_unescaped].
  rewrite (not_special_not_dquote c Hc).
  destruct (Ascii.eqb c backslash); by apply IH.
Qed.

Lemma quotes_unescaped_run (n : nat) (s : string) :
  forall run,
    quotes_unescaped run (backslashes n +:+ s) = quotes_unescaped (run + n) s.
Proof.
  induction n as [|n IH]; intros run.
  - rewrite sapp_nil_l. by rewrite Nat.add_0_r.
  - cbn [backslashes]. rewrite sapp_cons. cbn [quotes_unescaped].
    change (Ascii.eqb backslash backslash) with true. cbn iota.
    rewrite IH. f_equal. lia.
Qed.

Lemma even_double (n : nat) : Nat.even (n + n) = true.
Proof.
  replace (n + n)%nat with (2 * n)%nat by lia. apply Nat.even_spec.
  by exists n.
Qed.

Lemma quotes_unescaped_sub (s : string) :
  forall run, quotes_unescaped 0 (sub_backslashes run s) = true.
Proof.
  induction s as [|c s IH]; intros run; cbn [sub_backslashes].
  - rewrite <- (sapp_empty_r (backslashes run)).
    by rewrite quotes_unescaped_run.
  - destruct (Ascii.eqb c backslash) eqn:Hb; [apply IH|].
    destruct (Ascii.eqb c dquote) eqn:Hq;
      rewrite quotes_unescaped_run; cbn [quotes_unescaped];
      rewrite Hb, Hq, IH; simpl; [|done].
    by rewrite even_double.
Qed.

(** The result of quoting starts with a double quote. *)
Lemma quoted_starts_with_dquote (arg : string) :
  exists rest,
    sub_backslashes 0
      (String dquote (double_quotes arg +:+ String dquote EmptyString)) =
    String dquote rest.
Proof.
  cbn [sub_backslashes].
  change (Ascii.eqb dquote backslash) with false.
  change (Ascii.eqb dquote dquote) with true. cbn iota.
  simpl backslashes. rewrite sapp_nil_l. by eexists.
Qed.

(** ** The properties *)

(** X12. An argument comes back as it is exactly when it has none of the
    characters searched for; the empty argument is such a one, and is
    returned empty, without quotes. *)
Theorem unquoted_exactly_without_special_characters (arg : string) :
  shell_quote_win arg = arg <-> search_special arg = false.
Proof.
  unfold shell_quote_win. split.
  - destruct (search_special arg); [|done]. intros Heq. exfalso.
    apply (f_equal String.length) in Heq.
    pose proof (sub_backslashes_length
                  (String dquote (double_quotes arg +:+ String dquote EmptyString))
                  0) as Hlen.
    rewrite Heq in Hlen. cbn [String.length] in Hlen.
    rewrite slength_app in Hlen. cbn [String.length] in Hlen.
    pose proof (double_quotes_length arg). lia.
  - by intros ->.
Qed.

(** X13. Two different arguments never get the same text: what
    [shell_quote_win] returns determines its argument. *)
Theorem different_arguments_are_quoted_differently (a b : string) :
  a <> b -> shell_quote_win a <> shell_quote_win b.
Proof.
  intros Hne Heq. apply Hne. unfold shell_quote_win in Heq.
  destruct (search_special a) eqn:Ha, (search_special b) eqn:Hb.
  - apply (f_equal (halve_backslashes 0)) in Heq.
    rewrite !halve_sub_backslashes in Heq. simpl backslashes in Heq.
    rewrite !sapp_nil_l in Heq. injection Heq as Heq.
    assert (String.length (double_quotes a) = String.length (double_quotes b))
      as Hlen.
    { apply (f_equal String.length) in Heq. rewrite !slength_app in Heq.
      simpl in Heq. lia. }
    destruct (sapp_inj_length _ _ _ _ Heq Hlen) as [Hdq _].
    apply (f_equal single_quotes) in Hdq.
    by rewrite !single_double_quotes in Hdq.
  - destruct (quoted_starts_with_dquote a) as [rest Hr].
    rewrite Hr in Heq. subst b.
    apply search_special_cons in Hb as [Hd _]. by vm_compute in Hd.
  - destruct (quoted_starts_with_dquote b) as [rest Hr].
    rewrite Hr in Heq. subst a.
    apply search_special_cons in Ha as [Hd _]. by vm_compute in Hd.
  - done.
Qed.

Lemma different_arguments_are_quoted_differently_witness :
  shell_quote_win "my file" <> shell_quote_win "my  file".
Proof.
  apply (different_arguments_are_quoted_differently "my file" "my  file").
  discriminate.
Defined.

(** X14. In what [shell_quote_win] returns, the backslashes that stand right
    before a double quote are in even number. *)
Theorem backslashes_before_a_quote_are_even (arg : string) :
  quotes_unescaped 0 (shell_quote_win arg) = true.
Proof.
  unfold shell_quote_win. destruct (search_special arg) eqn:Hs.
  - apply quotes_unescaped_sub.
  - by apply quotes_unescaped_no_quote.
Qed.

End ShellQuoteFacts.

(** * Facts about the output of [tty_capture] *)

Module TtyOutputFacts.
Import TtyCapture TtyOutput TtyCaptureFacts.

Lemma data_read_app (fd : Z) (l1 l2 : list syscall) :
  data_read fd (l1 ++ l2) = data_read fd l1 ++ data_read fd l2.
Proof.
  induction l1 as [|e l1 IH]; [done|].
  destruct e as [| | | | |fd' n [data|err]| | | |]; simpl; try done.
  destruct (decide (fd' = fd)); [|done]. by rewrite IH, app_assoc.
Qed.

Lemma data_read_read_call (fd : Z) (r : Z * bytes) (l : list syscall) :
  data_read fd (read_call r :: l) =
  if decide (r.1 = fd) then r.2 ++ data_read fd l else data_read fd l.
Proof. reflexivity. Qed.

(** What the reads of one round add to the two buffers. *)
Lemma foldl_append_read (mo me : Z) (fdmap : gmap Z string)
    (reads : list (Z * bytes)) :
  fdmap !! mo = Some "stdout" -> fdmap !! me = Some "stderr" -> mo <> me ->
  Forall (fun r => r.1 = mo \/ r.1 = me) reads ->
  forall (res : gmap string bytes) (o e : bytes),
    res !! "stdout" = Some o -> res !! "stderr" = Some e ->
    foldl (append_read fdmap) res reads !! "stdout" =
      Some (o ++ data_read mo (read_call <$> reads)) /\
    foldl (append_read fdmap) res reads !! "stderr" =
      Some (e ++ data_read me (read_call <$> reads)).
Proof.
  intros Hmo Hme Hne. induction 1 as [|r reads Hr _ IH]; intros res o e Ho He.
  - simpl. by rewrite !app_nil_r.
  - cbn [foldl]. rewrite fmap_cons, !data_read_read_call.
    unfold append_read at 2 4. destruct Hr as [Hr|Hr]; rewrite Hr.
    + rewrite Hmo, Ho. rewrite (decide_True (P := mo = mo)) by done.
      rewrite (decide_False (P := mo = me)) by done.
      rewrite app_assoc. apply IH.
      * by rewrite lookup_insert_eq.
      * by rewrite lookup_insert_ne.
    + rewrite Hme, He. rewrite (decide_True (P := me = me)) by done.
      rewrite (decide_False (P := me = mo)) by done.
      rewrite app_assoc. apply IH.
      * by rewrite lookup_insert_ne.
      * by rewrite lookup_insert_eq.
Qed.

(** What the loop adds to the two buffers, from where it is to where it is
    left. *)
Lemma poll_loop_data (c : child) (mo me : Z) (fdmap : gmap Z string)
    (deadline : Z) :
  fdmap !! mo = Some "stdout" -> fdmap !! me = Some "stderr" -> mo <> me ->
  forall (fuel : nat) (res : gmap string bytes) (w : os)
         (res' : gmap string bytes) (w' : os) (o e : bytes),
    res !! "stdout" = Some o -> res !! "stderr" = Some e ->
    poll_loop c fuel mo me fdmap deadline res w = Returns res' w' ->
    exists l, os_log w' = os_log w ++ l /\
              res' !! "stdout" = Some (o ++ data_read mo l) /\
              res' !! "stderr" = Some (e ++ data_read me l).
Proof.
  intros Hmo Hme Hne.
  induction fuel as [|fuel IH]; intros res w res' w' o e Ho He; [done|].
  rewrite poll_loop_S.
  destruct (filter _ _) as [|fd ready] eqn:Ef.
  - destruct (status c (S (os_round w))) as [code|].
    { intros [= <- <-]. eexists [_; _]. split.
      - cbn [record_call round_opened os_log]. by rewrite <- app_assoc.
      - simpl. by rewrite !app_nil_r. }
    destruct (deadline <? clock c (S (os_round w))).
    { intros [= <- <-]. eexists [_; _; _]. split.
      - unfold round_idle. cbn [record_call round_opened os_log].
        by rewrite <- !app_assoc.
      - simpl. by rewrite !app_nil_r. }
    intros (l & Hlog & Hout & Herr)%(IH _ _ _ _ o e Ho He).
    exists (Select [mo; me] select_timeout [] :: Poll None ::
              Time (clock c (S (os_round w))) :: l).
    split; [|exact (conj Hout Herr)].
    rewrite Hlog. unfold round_idle. cbn [record_call round_opened os_log].
    rewrite Ef. by rewrite <- !app_assoc.
  - destruct (read_ready c fdmap (fd :: ready) res (round_opened c mo me w))
      as [res1 w1| | |] eqn:Er; try done.
    apply read_ready_reads in Er as (reads & _ & -> & Hlog1).
    assert (Forall (fun r => r.1 = mo \/ r.1 = me) reads /\
            exists tail,
              os_log w1 = os_log w ++
                Select [mo; me] select_timeout (fd :: ready) ::
                (read_call <$> reads) ++ tail /\
              forall fd', data_read fd' tail = []) as (Hreads & tail & Hl1 & Ht).
    { assert (forall fd', fd' ∈ fd :: ready -> fd' = mo \/ fd' = me) as Hin.
      { intros fd' Hfd'. rewrite <- Ef in Hfd'.
        apply list_elem_of_filter in Hfd' as [_ Hfd'].
        apply elem_of_cons in Hfd' as [->|Hfd']; [by left|].
        apply elem_of_cons in Hfd' as [->|Hfd']; [by right|].
        by apply elem_of_nil in Hfd'. }
      cbn [round_opened os_log] in Hlog1. rewrite Ef in Hlog1.
      destruct Hlog1 as [[Hall Hlog1]|(fd0 & after & Hcut & Hlog1)].
      - split.
        + apply Forall_forall. intros r Hr. apply Hin. rewrite <- Hall.
          apply list_elem_of_fmap. by exists r.
        + exists []. split; [|done].
          by rewrite Hlog1, app_nil_r, <- app_assoc.
      - split.
        + apply Forall_forall. intros r Hr. apply Hin. rewrite Hcut.
          apply elem_of_app. left. apply list_elem_of_fmap. by exists r.
        + exists [Read fd0 512 (Ok [])]. split.
          * by rewrite Hlog1, <- app_assoc.
          * intros fd'. simpl. by destruct (decide (fd0 = fd')). }
    destruct (foldl_append_read mo me fdmap reads Hmo Hme Hne Hreads res o e
                Ho He) as [Ho1 He1].
    intros (l & Hlog & Hout & Herr)%(IH _ _ _ _ _ _ Ho1 He1).
    exists (Select [mo; me] select_timeout (fd :: ready) ::
              (read_call <$> reads) ++ tail ++ l).
    split.
    + rewrite Hlog, Hl1. rewrite <- !app_assoc. simpl.
      by rewrite <- !app_assoc.
    + cbn [data_read]. rewrite !data_read_app, !Ht. simpl.
      by rewrite <- !app_assoc in Hout, Herr.
Qed.

(** X15. What [tty_capture] returns as standard output is what its reads
    of the controlling end of the first pseudo-terminal gave, put end to end
    in the order of the reads, and likewise the error output with the second
    pseudo-terminal: nothing read is lost, nothing else is added. *)
Theorem output_is_what_was_read (c : child) (fuel : nat) (open : gset Z)
    (cmd : list string) (bytes_input : bytes) (timeout : Z) (t : ptys)
    (w0 w2 : os) (code : Z) (out err : bytes) :
  launch c cmd bytes_input timeout (boot open) = Returns t w0 ->
  tty_capture c fuel cmd bytes_input timeout (boot open) =
    Returns (code, out, err) w2 ->
  out = data_read (mo t) (os_log w2) /\ err = data_read (me t) (os_log w2).
Proof.
  intros Hl Hrun.
  pose proof (launch_launched c _ _ _ _ _ _ Hl) as Hfacts.
  pose proof (launched_fdmap c _ _ _ _ _ _ Hfacts) as (Hmo & Hme & _ & _).
  destruct Hfacts as (Hnd & _ & _ & _ & _ & Hlog0).
  assert (mo t <> me t) as Hne.
  { repeat match goal with
           | H : NoDup (_ :: _) |- _ => apply NoDup_cons in H as [? ?]
           end. set_solver. }
  pose proof (tty_capture_not_left c fuel open cmd bytes_input timeout t w0 Hl)
    as Hnot.
  destruct (poll_loop c fuel (mo t) (me t) (fdmap_of t) (timeout_exact t)
              empty_res w0) as [res w1| | |] eqn:Hp;
    try (rewrite Hnot in Hrun; discriminate).
  destruct (tty_capture_left c fuel open cmd bytes_input timeout t w0 w1 res
              Hl Hp) as (out' & err' & w2' & Hrun' & Hout & Herr & _ & _ & _ & Hlog2).
  rewrite Hrun in Hrun'. destruct (exit_status c); [|done].
  injection Hrun' as _ <- <- <-.
  assert (empty_res !! "stdout" = Some [] /\ empty_res !! "stderr" = Some [])
    as [Ho He].
  { unfold empty_res. split.
    - by rewrite lookup_insert_ne, lookup_insert_eq.
    - by rewrite lookup_insert_eq. }
  destruct (poll_loop_data c (mo t) (me t) (fdmap_of t) (timeout_exact t)
              Hmo Hme Hne fuel empty_res w0 res w1 [] [] Ho He Hp)
    as (l & Hlog1 & Hout1 & Herr1).
  rewrite Hlog2, Hlog1, Hlog0, !data_read_app. simpl in Hout1, Herr1 |- *.
  rewrite !app_nil_r. split; congruence.
Qed.

Lemma output_is_what_was_read_witness :
  hello =
    data_read 3
      (os_log (world_of (tty_capture echo_child 5 ["cat"] hello 5000
                           (boot std_fds)))) /\
  [] =
    data_read 5
      (os_log (world_of (tty_capture echo_child 5 ["cat"] hello 5000
                           (boot std_fds)))).
Proof.
  apply (output_is_what_was_read echo_child 5 std_fds ["cat"] hello 5000
           {| mo := 3; so := 4; me := 5; se := 6; mi := 7; si := 8;
              timeout_exact := 6000 |}
           (world_of (launch echo_child ["cat"] hello 5000 (boot std_fds)))
           (world_of (tty_capture echo_child 5 ["cat"] hello 5000
                        (boot std_fds)))
           0 hello []).
  - vm_compute. reflexivity.
  - vm_compute. reflexivity.
Defined.

End TtyOutputFacts.
